(** * Ride-sharing dispatch: a shallow embedding of [main.cpp]

    The C++ program keeps its objects on the heap and passes raw pointers
    around.  The embedding keeps three object stores (drivers, riders and
    rides), a pointer being an index into its store, and threads the whole
    program state, a [World], through every operation.  A C++ [double] is an
    IEEE binary64 number, embedded as Rocq's primitive [float]; every
    arithmetic operation is rounded on its own, as the source writes it.
    Dereferencing a pointer that designates no object is undefined behaviour
    in C++; the embedding returns [None] there.  The source has no [throw]:
    a call either returns normally ([Some]) or is undefined ([None]). *)

From Stdlib Require Import ZArith Floats Lia.
From stdpp Require Import gmap strings list fin_maps pretty.

(** ** Doubles *)

(** [a < b] and [a > b] on C++ doubles. *)
Definition dlt (a b : float) : bool := PrimFloat.ltb a b.
Definition dgt (a b : float) : bool := dlt b a.

(** [numeric_limits<double>::infinity()] *)
Definition double_infinity : float := PrimFloat.infinity.

(** A double that is not a NaN, seen through its IEEE specification. *)
Definition not_nan (x : float) : Prop := Prim2SF x <> S754_nan.

(** [INT_MAX] of a 32-bit [int]; incrementing past it is undefined. *)
Definition INT_MAX : Z := 2147483647.

Definition incr_int (n : Z) : option Z :=
  if decide (n < INT_MAX)%Z then Some (n + 1)%Z else None.

(** [std::to_string(int)] *)
Definition to_string (n : Z) : string := pretty n.

(** ** Enumerations *)

Inductive VehicleType := BIKE | SEDAN | SUV | AUTO.

Inductive RideStatus :=
  | REQUESTED
  | DRIVER_ASSIGNED
  | EN_ROUTE_TO_PICKUP
  | IN_PROGRESS
  | COMPLETED
  | CANCELLED.

Inductive DriverStatus := AVAILABLE | ON_TRIP | OFFLINE.

Global Instance VehicleType_eq_dec : EqDecision VehicleType.
Proof. solve_decision. Defined.
Global Instance RideStatus_eq_dec : EqDecision RideStatus.
Proof. solve_decision. Defined.
Global Instance DriverStatus_eq_dec : EqDecision DriverStatus.
Proof. solve_decision. Defined.

(** A pointer to an object is the index of the object in its store. *)
Abbreviation ptr := nat (only parsing).

(** ** Value classes *)

Module Location.
Record t := make { latitude : float; longitude : float }.

Definition distanceTo (self other : t) : float :=
  let dx := (latitude self - latitude other)%float in
  let dy := (longitude self - longitude other)%float in
  PrimFloat.sqrt (dx * dx + dy * dy)%float.
End Location.

Module Vehicle.
(** A [Vehicle] has no setter, so a [Vehicle*] held by a driver is
    embedded as the vehicle itself. *)
Record t := make {
  plateNumber : string;
  type : VehicleType;
  capacity : Z;
  farePerKm : float
}.
End Vehicle.

Module Driver.
Record t := make {
  id : Z;
  name : string;
  phone : string;
  vehicle : Vehicle.t;
  currentLocation : Location.t;
  status : DriverStatus;
  rating : float
}.

Definition setStatus (s : DriverStatus) (d : t) : t :=
  make (id d) (name d) (phone d) (vehicle d) (currentLocation d) s (rating d).
Definition updateLocation (loc : Location.t) (d : t) : t :=
  make (id d) (name d) (phone d) (vehicle d) loc (status d) (rating d).
Definition setRating (r : float) (d : t) : t :=
  make (id d) (name d) (phone d) (vehicle d) (currentLocation d) (status d) r.
End Driver.

Module Rider.
Record t := make {
  id : Z;
  name : string;
  phone : string;
  currentLocation : Location.t;
  rideHistory : list ptr;
  discountAmount : float
}.

Definition updateLocation (loc : Location.t) (r : t) : t :=
  make (id r) (name r) (phone r) loc (rideHistory r) (discountAmount r).
Definition addRideToHistory (ride : ptr) (r : t) : t :=
  make (id r) (name r) (phone r) (currentLocation r)
       (rideHistory r ++ [ride]) (discountAmount r).
Definition hasDiscount (r : t) : bool := dgt (discountAmount r) 0.
Definition getDiscountAmount (r : t) : float := discountAmount r.
Definition setDiscountAmount (amt : float) (r : t) : t :=
  make (id r) (name r) (phone r) (currentLocation r) (rideHistory r) amt.
End Rider.

Module RideRequest.
Record t := make {
  rider : ptr;
  pickup : Location.t;
  drop : Location.t;
  type : VehicleType
}.
End RideRequest.

(** The two concrete [RideObserver] classes; both are stateless, and an
    observer attached to a ride is embedded as its class. *)
Inductive RideObserver := RiderNotificationService | DriverNotificationService.

Module Ride.
Record t := make {
  id : string;
  rider : ptr;
  driver : option ptr;
  pickupLocation : Location.t;
  dropLocation : Location.t;
  requestedType : VehicleType;
  status : RideStatus;
  distanceKm : float;
  fare : float;
  paid : bool;
  observers : list RideObserver
}.

(** The constructor [Ride::Ride]. *)
Definition new (rideId : string) (r : ptr) (pickup drop : Location.t)
    (ty : VehicleType) : t :=
  make rideId r None pickup drop ty REQUESTED
       (Location.distanceTo pickup drop) 0 false [].

(** Assignments to the private fields [driver] and [status]. *)
Definition with_driver (d : option ptr) (x : t) : t :=
  make (id x) (rider x) d (pickupLocation x) (dropLocation x)
       (requestedType x) (status x) (distanceKm x) (fare x) (paid x)
       (observers x).
Definition with_status (s : RideStatus) (x : t) : t :=
  make (id x) (rider x) (driver x) (pickupLocation x) (dropLocation x)
       (requestedType x) s (distanceKm x) (fare x) (paid x) (observers x).
Definition setFare (f : float) (x : t) : t :=
  make (id x) (rider x) (driver x) (pickupLocation x) (dropLocation x)
       (requestedType x) (status x) (distanceKm x) f (paid x) (observers x).
Definition setPaid (p : bool) (x : t) : t :=
  make (id x) (rider x) (driver x) (pickupLocation x) (dropLocation x)
       (requestedType x) (status x) (distanceKm x) (fare x) p (observers x).
Definition attachObserver (obs : RideObserver) (x : t) : t :=
  make (id x) (rider x) (driver x) (pickupLocation x) (dropLocation x)
       (requestedType x) (status x) (distanceKm x) (fare x) (paid x)
       (observers x ++ [obs]).
End Ride.

(** ** Matching strategies *)

(** The candidates of a matching query: each pointer of the vector handed to
    [chooseDriver], paired with the driver it designates.  The loops of both
    strategies dereference every element of the vector. *)
Definition Candidates := list (ptr * Driver.t).

(** The guard shared by both loops:
    [d->getStatus() == AVAILABLE && d->getVehicle()->getType() == request.getType()]. *)
Definition matches (request : RideRequest.t) (d : Driver.t) : bool :=
  bool_decide (Driver.status d = AVAILABLE)
  && bool_decide (Vehicle.type (Driver.vehicle d) = RideRequest.type request).

Module NearestDriverStrategy.
(** The distance the loop computes for a candidate. *)
Definition dist (request : RideRequest.t) (d : Driver.t) : float :=
  Location.distanceTo (Driver.currentLocation d) (RideRequest.pickup request).

(** One iteration of the loop on the pair [(nearest, minDistance)]. *)
Definition step (request : RideRequest.t) (acc : option ptr * float)
    (c : ptr * Driver.t) : option ptr * float :=
  if matches request c.2 then
    if dlt (dist request c.2) acc.2 then (Some c.1, dist request c.2) else acc
  else acc.

Definition chooseDriver (request : RideRequest.t)
    (availableDrivers : Candidates) : option ptr :=
  (fold_left (step request) availableDrivers (None, double_infinity)).1.
End NearestDriverStrategy.

Module BestRatedDriverStrategy.
(** One iteration of the loop on the pair [(best, bestRating)]. *)
Definition step (request : RideRequest.t) (acc : option ptr * float)
    (c : ptr * Driver.t) : option ptr * float :=
  if matches request c.2 then
    if dgt (Driver.rating c.2) acc.2 then (Some c.1, Driver.rating c.2) else acc
  else acc.

Definition chooseDriver (request : RideRequest.t)
    (availableDrivers : Candidates) : option ptr :=
  (fold_left (step request) availableDrivers (None, (-1)%float)).1.
End BestRatedDriverStrategy.

(** The classes that implement [MatchingStrategy]. *)
Inductive MatchingStrategy := NearestDriver | BestRatedDriver.

Definition chooseDriver (s : MatchingStrategy) (request : RideRequest.t)
    (availableDrivers : Candidates) : option ptr :=
  match s with
  | NearestDriver => NearestDriverStrategy.chooseDriver request availableDrivers
  | BestRatedDriver => BestRatedDriverStrategy.chooseDriver request availableDrivers
  end.

(** ** Fare calculators *)

Definition BASE_FARE : float := 50%float.

(** A chain of calculators: the base stage, or a decorator around a wrapped
    calculator. *)
Inductive FareCalculator :=
  | BaseFareCalculator
  | SurgePricingDecorator (wrappedCalculator : FareCalculator) (surgeMultiplier : float)
  | DiscountDecorator (wrappedCalculator : FareCalculator) (discountAmount : float).

(** [calculate] reads the ride's distance and, through the ride's driver, the
    vehicle's rate; [drivers] is the driver store.  A ride without a driver
    makes the base stage dereference a null pointer. *)
Fixpoint calculate (c : FareCalculator) (drivers : list Driver.t)
    (ride : Ride.t) : option float :=
  match c with
  | BaseFareCalculator =>
      dp ← Ride.driver ride;
      d ← drivers !! dp;
      let distance := Ride.distanceKm ride in
      let perKmRate := Vehicle.farePerKm (Driver.vehicle d) in
      Some (BASE_FARE + distance * perKmRate)%float
  | SurgePricingDecorator wrapped surgeMultiplier =>
      baseFare ← calculate wrapped drivers ride;
      Some (baseFare * surgeMultiplier)%float
  | DiscountDecorator wrapped discountAmount =>
      fareBeforeDiscount ← calculate wrapped drivers ride;
      let finalFare := (fareBeforeDiscount - discountAmount)%float in
      Some (if dlt finalFare 0 then 0%float else finalFare)
  end.

(** ** Payment *)

(** The classes that implement [PaymentProcessor]. *)
Inductive PaymentProcessor := DummyPaymentProcessor.

(** ** Console output *)

(** What the program writes to [cout], one event per message; names and
    identifiers are the ones the message prints. *)
Inductive Event :=
  | DriverRegistered (name : string)
  | DriverDeregistered (name : string)
  | RideRequested (riderName : string) (type : VehicleType)
  | NoAvailableDrivers (rideId : string)
  | RideNotFound (rideId : string)
  | RiderNotified (riderName : string) (rideId : string) (s : RideStatus)
  | DriverNotified (driverName : string) (rideId : string) (s : RideStatus)
  | ProcessingPayment (amount : float) (rideId : string)
  | PaymentSuccessful (riderName : string) (amount : float)
  | PaymentFailed (rideId : string)
  | DriverNowAvailable (name : string)
  | RideArchived (rideId : string).

(** ** Program state *)

Module DispatchService.
(** The fields of the singleton. *)
Record t := make {
  availableDrivers : list ptr;
  ongoingRides : gmap string ptr;
  completedRides : list ptr;
  matchingStrategy : MatchingStrategy;
  paymentProcessor : PaymentProcessor;
  surgeActive : bool;
  surgeMultiplier : float
}.

(** The private constructor. *)
Definition new : t :=
  make [] ∅ [] NearestDriver DummyPaymentProcessor false 1%float.

Definition with_availableDrivers (l : list ptr) (s : t) : t :=
  make l (ongoingRides s) (completedRides s) (matchingStrategy s)
       (paymentProcessor s) (surgeActive s) (surgeMultiplier s).
Definition with_ongoingRides (m : gmap string ptr) (s : t) : t :=
  make (availableDrivers s) m (completedRides s) (matchingStrategy s)
       (paymentProcessor s) (surgeActive s) (surgeMultiplier s).
Definition with_completedRides (l : list ptr) (s : t) : t :=
  make (availableDrivers s) (ongoingRides s) l (matchingStrategy s)
       (paymentProcessor s) (surgeActive s) (surgeMultiplier s).
Definition with_matchingStrategy (m : MatchingStrategy) (s : t) : t :=
  make (availableDrivers s) (ongoingRides s) (completedRides s) m
       (paymentProcessor s) (surgeActive s) (surgeMultiplier s).
Definition with_surge (a : bool) (m : float) (s : t) : t :=
  make (availableDrivers s) (ongoingRides s) (completedRides s)
       (matchingStrategy s) (paymentProcessor s) a m.
End DispatchService.

Record World := mkWorld {
  idCounter : Z;                 (* User::idCounter *)
  rideCounter : Z;               (* RideFactory::rideCounter *)
  drivers : list Driver.t;       (* the Driver objects *)
  riders : list Rider.t;         (* the Rider objects *)
  rides : list Ride.t;           (* the Ride objects *)
  dispatch : DispatchService.t;  (* DispatchService::getInstance() *)
  console : list Event           (* cout *)
}.

(** The state at the start of [main]. *)
Definition init : World := mkWorld 0 0 [] [] [] DispatchService.new [].

Definition with_idCounter (n : Z) (w : World) : World :=
  mkWorld n (rideCounter w) (drivers w) (riders w) (rides w) (dispatch w) (console w).
Definition with_rideCounter (n : Z) (w : World) : World :=
  mkWorld (idCounter w) n (drivers w) (riders w) (rides w) (dispatch w) (console w).
Definition with_drivers (l : list Driver.t) (w : World) : World :=
  mkWorld (idCounter w) (rideCounter w) l (riders w) (rides w) (dispatch w) (console w).
Definition with_riders (l : list Rider.t) (w : World) : World :=
  mkWorld (idCounter w) (rideCounter w) (drivers w) l (rides w) (dispatch w) (console w).
Definition with_rides (l : list Ride.t) (w : World) : World :=
  mkWorld (idCounter w) (rideCounter w) (drivers w) (riders w) l (dispatch w) (console w).
Definition with_dispatch (s : DispatchService.t) (w : World) : World :=
  mkWorld (idCounter w) (rideCounter w) (drivers w) (riders w) (rides w) s (console w).
(** [cout << ...] *)
Definition print (e : Event) (w : World) : World :=
  mkWorld (idCounter w) (rideCounter w) (drivers w) (riders w) (rides w)
          (dispatch w) (console w ++ [e]).

(** [std::remove] followed by [erase]: every element equal to [p] goes. *)
Definition erase_remove (p : ptr) (l : list ptr) : list ptr :=
  filter (λ q, q ≠ p) l.

(** ** Calls through a pointer *)

(** [p->method(...)] for a method that updates the object in place: the call
    is undefined when [p] designates no object. *)
Definition modify_driver (p : ptr) (f : Driver.t → Driver.t) (w : World) : option World :=
  d ← drivers w !! p; Some (with_drivers (<[p := f d]> (drivers w)) w).
Definition modify_rider (p : ptr) (f : Rider.t → Rider.t) (w : World) : option World :=
  r ← riders w !! p; Some (with_riders (<[p := f r]> (riders w)) w).
Definition modify_ride (p : ptr) (f : Ride.t → Ride.t) (w : World) : option World :=
  r ← rides w !! p; Some (with_rides (<[p := f r]> (rides w)) w).
Definition modify_dispatch (f : DispatchService.t → DispatchService.t) (w : World) : World :=
  with_dispatch (f (dispatch w)) w.

(** ** Constructors of the user classes *)

(** [new Driver(name, phone, vehicle, loc, rating)]: the [User] constructor
    draws the identifier, the driver starts [AVAILABLE]. *)
Definition new_Driver (name phone : string) (vehicle : Vehicle.t)
    (loc : Location.t) (rating : float) (w : World) : option (ptr * World) :=
  n ← incr_int (idCounter w);
  Some (length (drivers w),
        with_drivers (drivers w ++ [Driver.make n name phone vehicle loc AVAILABLE rating])
                     (with_idCounter n w)).

(** [new Rider(name, phone, loc)] *)
Definition new_Rider (name phone : string) (loc : Location.t) (w : World)
    : option (ptr * World) :=
  n ← incr_int (idCounter w);
  Some (length (riders w),
        with_riders (riders w ++ [Rider.make n name phone loc [] 0%float])
                    (with_idCounter n w)).

(** ** Methods of [Ride], called through a pointer [r] *)

Definition onRideStatusChanged (obs : RideObserver) (ride : Ride.t)
    (newStatus : RideStatus) (w : World) : option World :=
  match obs with
  | RiderNotificationService =>
      rd ← riders w !! Ride.rider ride;
      Some (print (RiderNotified (Rider.name rd) (Ride.id ride) newStatus) w)
  | DriverNotificationService =>
      match Ride.driver ride with
      | Some dp =>
          d ← drivers w !! dp;
          Some (print (DriverNotified (Driver.name d) (Ride.id ride) newStatus) w)
      | None => Some w
      end
  end.

Fixpoint notify_each (obs : list RideObserver) (ride : Ride.t)
    (newStatus : RideStatus) (w : World) : option World :=
  match obs with
  | [] => Some w
  | o :: obs' =>
      w' ← onRideStatusChanged o ride newStatus w;
      notify_each obs' ride newStatus w'
  end.

Definition Ride_notifyObservers (r : ptr) (newStatus : RideStatus) (w : World)
    : option World :=
  ride ← rides w !! r;
  notify_each (Ride.observers ride) ride newStatus w.

Definition Ride_updateStatus (r : ptr) (newStatus : RideStatus) (w : World)
    : option World :=
  w1 ← modify_ride r (Ride.with_status newStatus) w;
  Ride_notifyObservers r newStatus w1.

Definition Ride_assignDriver (r : ptr) (d : option ptr) (w : World) : option World :=
  w1 ← modify_ride r (Ride.with_driver d) w;
  Ride_updateStatus r DRIVER_ASSIGNED w1.

Definition Ride_attachObserver (r : ptr) (obs : RideObserver) (w : World)
    : option World :=
  modify_ride r (Ride.attachObserver obs) w.

(** ** [RideFactory] *)

Definition createRide (request : RideRequest.t) (w : World) : option (ptr * World) :=
  n ← incr_int (rideCounter w);
  let rideId := to_string n in
  Some (length (rides w),
        with_rides (rides w ++ [Ride.new rideId (RideRequest.rider request)
                                  (RideRequest.pickup request)
                                  (RideRequest.drop request)
                                  (RideRequest.type request)])
                   (with_rideCounter n w)).

(** ** [DummyPaymentProcessor] *)

Definition processPayment (pp : PaymentProcessor) (ride : Ride.t)
    (amount : float) (w : World) : bool * World :=
  match pp with
  | DummyPaymentProcessor => (true, print (ProcessingPayment amount (Ride.id ride)) w)
  end.

(** ** Methods of [DispatchService] *)

Import DispatchService.

Definition setMatchingStrategy (strategy : MatchingStrategy) (w : World) : World :=
  modify_dispatch (with_matchingStrategy strategy) w.

Definition activateSurge (multiplier : float) (w : World) : World :=
  modify_dispatch (with_surge true multiplier) w.

Definition deactivateSurge (w : World) : World :=
  modify_dispatch (with_surge false 1%float) w.

Definition registerDriver (driver : ptr) (w : World) : option World :=
  w1 ← modify_driver driver (Driver.setStatus AVAILABLE) w;
  let w2 := modify_dispatch
              (λ s, with_availableDrivers (availableDrivers s ++ [driver]) s) w1 in
  d ← drivers w2 !! driver;
  Some (print (DriverRegistered (Driver.name d)) w2).

Definition deregisterDriver (driver : ptr) (w : World) : option World :=
  w1 ← modify_driver driver (Driver.setStatus OFFLINE) w;
  let w2 := modify_dispatch
              (λ s, with_availableDrivers (erase_remove driver (availableDrivers s)) s) w1 in
  d ← drivers w2 !! driver;
  Some (print (DriverDeregistered (Driver.name d)) w2).

(** The vector [availableDrivers] as the strategies read it. *)
Definition candidates (w : World) : option Candidates :=
  mapM (λ p, d ← drivers w !! p; Some (p, d)) (availableDrivers (dispatch w)).

Definition requestRide (rider : ptr) (pickup drop : Location.t)
    (type : VehicleType) (w : World) : option (ptr * World) :=
  rd ← riders w !! rider;
  let w := print (RideRequested (Rider.name rd) type) w in
  let request := RideRequest.make rider pickup drop type in
  '(ride, w) ← createRide request w;
  w ← modify_rider rider (Rider.addRideToHistory ride) w;
  cands ← candidates w;
  match chooseDriver (matchingStrategy (dispatch w)) request cands with
  | None =>
      rideObj ← rides w !! ride;
      let w := print (NoAvailableDrivers (Ride.id rideObj)) w in
      w ← Ride_updateStatus ride CANCELLED w;
      Some (ride, w)
  | Some chosenDriver =>
      w ← Ride_attachObserver ride RiderNotificationService w;
      w ← Ride_attachObserver ride DriverNotificationService w;
      w ← Ride_assignDriver ride (Some chosenDriver) w;
      w ← modify_driver chosenDriver (Driver.setStatus ON_TRIP) w;
      let w := modify_dispatch
                 (λ s, with_availableDrivers
                         (erase_remove chosenDriver (availableDrivers s)) s) w in
      rideObj ← rides w !! ride;
      let w := modify_dispatch
                 (λ s, with_ongoingRides (<[Ride.id rideObj := ride]> (ongoingRides s)) s) w in
      Some (ride, w)
  end.

Definition updateRideStatus (rideId : string) (newStatus : RideStatus)
    (w : World) : option World :=
  match ongoingRides (dispatch w) !! rideId with
  | None => Some (print (RideNotFound rideId) w)
  | Some ride => Ride_updateStatus ride newStatus w
  end.

(** [Rider::requestRide] forwards to the service. *)
Definition Rider_requestRide (self : ptr) (pickup drop : Location.t)
    (type : VehicleType) (w : World) : option (ptr * World) :=
  requestRide self pickup drop type w.

(** The calculator chain [completeRide] builds. *)
Definition fare_chain (surge : bool) (multiplier : float) (rd : Rider.t)
    : FareCalculator :=
  let calculator := BaseFareCalculator in
  let calculator :=
    if surge then SurgePricingDecorator calculator multiplier else calculator in
  if Rider.hasDiscount rd
  then DiscountDecorator calculator (Rider.getDiscountAmount rd)
  else calculator.

Definition completeRide (rideId : string) (w : World) : option World :=
  match ongoingRides (dispatch w) !! rideId with
  | None => Some (print (RideNotFound rideId) w)
  | Some ride =>
      (* 1. Mark completed *)
      w ← Ride_updateStatus ride COMPLETED w;
      (* 2. Fare calculation *)
      rideObj ← rides w !! ride;
      rd ← riders w !! Ride.rider rideObj;
      let calculator :=
        fare_chain (surgeActive (dispatch w)) (surgeMultiplier (dispatch w)) rd in
      finalFare ← calculate calculator (drivers w) rideObj;
      w ← modify_ride ride (Ride.setFare finalFare) w;
      (* 3. Process payment *)
      let '(paid, w) :=
        processPayment (paymentProcessor (dispatch w)) rideObj finalFare w in
      w ← (if paid : bool
           then w ← modify_ride ride (Ride.setPaid true) w;
                Some (print (PaymentSuccessful (Rider.name rd) finalFare) w)
           else Some (print (PaymentFailed (Ride.id rideObj)) w));
      (* 4. Free up driver *)
      driver ← Ride.driver rideObj;
      w ← modify_driver driver (Driver.setStatus AVAILABLE) w;
      let w := modify_dispatch
                 (λ s, with_availableDrivers (availableDrivers s ++ [driver]) s) w in
      d ← drivers w !! driver;
      let w := print (DriverNowAvailable (Driver.name d)) w in
      (* 5. Move ride from ongoing to completed *)
      let w := modify_dispatch
                 (λ s, with_completedRides (completedRides s ++ [ride])
                         (with_ongoingRides (delete rideId (ongoingRides s)) s)) w in
      Some (print (RideArchived rideId) w)
  end.

(** ** Client programs *)

(** The calls a client of the classes makes, as [main] does: it constructs
    drivers and riders, updates their data, and calls the dispatch service.
    [Driver::setStatus] is left to the service. *)
Inductive Op :=
  | NewDriver (name phone : string) (vehicle : Vehicle.t) (loc : Location.t)
              (rating : float)
  | NewRider (name phone : string) (loc : Location.t)
  | DriverUpdateLocation (d : ptr) (loc : Location.t)
  | DriverSetRating (d : ptr) (r : float)
  | RiderUpdateLocation (r : ptr) (loc : Location.t)
  | RiderSetDiscountAmount (r : ptr) (amt : float)
  | RegisterDriver (d : ptr)
  | DeregisterDriver (d : ptr)
  | RequestRide (rider : ptr) (pickup drop : Location.t) (type : VehicleType)
  | UpdateRideStatus (rideId : string) (newStatus : RideStatus)
  | CompleteRide (rideId : string)
  | SetMatchingStrategy (s : MatchingStrategy)
  | ActivateSurge (multiplier : float)
  | DeactivateSurge.

Definition step (op : Op) (w : World) : option World :=
  match op with
  | NewDriver name phone vehicle loc rating =>
      snd <$> new_Driver name phone vehicle loc rating w
  | NewRider name phone loc => snd <$> new_Rider name phone loc w
  | DriverUpdateLocation d loc => modify_driver d (Driver.updateLocation loc) w
  | DriverSetRating d r => modify_driver d (Driver.setRating r) w
  | RiderUpdateLocation r loc => modify_rider r (Rider.updateLocation loc) w
  | RiderSetDiscountAmount r amt => modify_rider r (Rider.setDiscountAmount amt) w
  | RegisterDriver d => registerDriver d w
  | DeregisterDriver d => deregisterDriver d w
  | RequestRide rider pickup drop type => snd <$> requestRide rider pickup drop type w
  | UpdateRideStatus rideId newStatus => updateRideStatus rideId newStatus w
  | CompleteRide rideId => completeRide rideId w
  | SetMatchingStrategy s => Some (setMatchingStrategy s w)
  | ActivateSurge m => Some (activateSurge m w)
  | DeactivateSurge => Some (deactivateSurge w)
  end.

(** Running a program from a state. *)
Fixpoint run (ops : list Op) (w : World) : option World :=
  match ops with
  | [] => Some w
  | op :: ops' => w' ← step op w; run ops' w'
  end.

(** * Vocabulary of the properties

    What the statements below are written with: the loop both strategies
    run, the claims as the specification words them, the invariants of the
    reachable states, and sample programs and objects. *)

(** Both strategies run the same loop: keep the best key seen so far, start
    from a sentinel, and replace the current choice only by a strictly
    better one.  [scan_inv] is what holds of the pair the loop carries after
    the elements [l]. *)
Section ScanDefinitions.
Context {C K : Type}.
Variable elig : C → bool.
Variable key : C → K.
Variable better : K → K → bool.
Variable sentinel : K.

Definition scan_step (acc : option C * K) (c : C) : option C * K :=
  if elig c then
    if better (key c) acc.2 then (Some c, key c) else acc
  else acc.

Definition scan (l : list C) : option C * K :=
  fold_left scan_step l (None, sentinel).

(** An element the loop can select at all. *)
Definition qualifies (c : C) : bool := elig c && better (key c) sentinel.

Definition scan_inv (l : list C) (acc : option C * K) : Prop :=
  match acc.1 with
  | None => acc.2 = sentinel ∧ ∀ c, c ∈ l → qualifies c = false
  | Some x =>
      acc.2 = key x ∧
      ∃ i, l !! i = Some x ∧ qualifies x = true ∧
           (∀ c, c ∈ l → elig c = true → better (key c) (key x) = false) ∧
           (∀ j c, j < i → l !! j = Some c → qualifies c = true →
                   better (key x) (key c) = true)
  end.
End ScanDefinitions.

(** A candidate the nearest-driver loop can select: it passes the guard and
    its distance is below the initial [minDistance]. *)
Definition nearest_qualifies (request : RideRequest.t) (d : Driver.t) : bool :=
  matches request d
  && dlt (NearestDriverStrategy.dist request d) double_infinity.

(** A candidate the best-rated loop can select: it passes the guard and its
    rating is above the initial [bestRating]. *)
Definition best_rated_qualifies (request : RideRequest.t) (d : Driver.t) : bool :=
  matches request d && dgt (Driver.rating d) (-1)%float.

(** C3 as the specification words it: none when no candidate passes the
    guard, otherwise a candidate that passes it, at minimal distance, the
    first of those at that distance. *)
Definition nearest_claim (request : RideRequest.t) (cands : Candidates) : Prop :=
  ((∀ c, c ∈ cands → matches request c.2 = false) →
   NearestDriverStrategy.chooseDriver request cands = None) ∧
  ((∃ c, c ∈ cands ∧ matches request c.2 = true) →
   ∃ p i d,
     NearestDriverStrategy.chooseDriver request cands = Some p ∧
     cands !! i = Some (p, d) ∧ matches request d = true ∧
     (∀ c, c ∈ cands → matches request c.2 = true →
           dlt (NearestDriverStrategy.dist request c.2)
               (NearestDriverStrategy.dist request d) = false) ∧
     (∀ j c, j < i → cands !! j = Some c → matches request c.2 = true →
             dlt (NearestDriverStrategy.dist request d)
                 (NearestDriverStrategy.dist request c.2) = true)).

(** C4 as the specification words it. *)
Definition best_rated_claim (request : RideRequest.t) (cands : Candidates) : Prop :=
  ((∀ c, c ∈ cands → matches request c.2 = false) →
   BestRatedDriverStrategy.chooseDriver request cands = None) ∧
  ((∃ c, c ∈ cands ∧ matches request c.2 = true) →
   ∃ p i d,
     BestRatedDriverStrategy.chooseDriver request cands = Some p ∧
     cands !! i = Some (p, d) ∧ matches request d = true ∧
     (∀ c, c ∈ cands → matches request c.2 = true →
           dgt (Driver.rating c.2) (Driver.rating d) = false) ∧
     (∀ j c, j < i → cands !! j = Some c → matches request c.2 = true →
             dgt (Driver.rating d) (Driver.rating c.2) = true)).

(** Sample data: the sedan of [main]. *)
Definition sedan : Vehicle.t := Vehicle.make "KA-01-1234" SEDAN 4 15%float.

(** A sedan driver far away: the square of the latitude difference overflows. *)
Definition far_driver : Driver.t :=
  Driver.make 1 "Alice" "9999990001" sedan (Location.make 0x1p+600%float 0%float)
              AVAILABLE 4.5%float.
Definition sedan_request : RideRequest.t :=
  RideRequest.make 0 (Location.make 0%float 0%float)
                   (Location.make 3%float 4%float) SEDAN.

(** A sedan driver whose rating is the initial [bestRating]. *)
Definition low_rated_driver : Driver.t :=
  Driver.make 1 "Alice" "9999990001" sedan (Location.make 0%float 0%float)
              AVAILABLE (-1)%float.

(** [r] is the maximum of 0 and [x]: it is one of the two and below neither. *)
Definition is_max0 (x r : float) : Prop :=
  (r = 0%float ∨ r = x) ∧ dlt r 0 = false ∧ dlt r x = false.

(** A ride of 10 km driven by a sedan at rate 15. *)
Definition near_driver : Driver.t :=
  Driver.make 1 "Alice" "9999990001" sedan (Location.make 0%float 0%float)
              ON_TRIP 4.5%float.
Definition ten_km_ride : Ride.t :=
  Ride.make "1" 0 (Some 0) (Location.make 0%float 0%float)
            (Location.make 6%float 8%float) SEDAN COMPLETED 10%float 0%float
            false [RiderNotificationService; DriverNotificationService].

(** The transition graph of the specification. *)
Definition spec_transition (a b : RideStatus) : bool :=
  match a, b with
  | REQUESTED, DRIVER_ASSIGNED
  | DRIVER_ASSIGNED, EN_ROUTE_TO_PICKUP
  | EN_ROUTE_TO_PICKUP, IN_PROGRESS
  | IN_PROGRESS, COMPLETED => true
  | (REQUESTED | DRIVER_ASSIGNED | EN_ROUTE_TO_PICKUP | IN_PROGRESS), CANCELLED => true
  | _, _ => false
  end.

(** Two states that differ at most in what was printed. *)
Definition same_objects (w w' : World) : Prop :=
  idCounter w' = idCounter w ∧ rideCounter w' = rideCounter w ∧
  drivers w' = drivers w ∧ riders w' = riders w ∧ rides w' = rides w ∧
  dispatch w' = dispatch w.

(** The observers can print when the pointers they follow designate objects. *)
Definition printable (ride : Ride.t) (w : World) : Prop :=
  is_Some (riders w !! Ride.rider ride) ∧
  ∀ dp, Ride.driver ride = Some dp → is_Some (drivers w !! dp).

(** The program of [main] up to the completion of the first ride, with two
    sedan drivers. *)
Definition demo_setup : list Op :=
  [ NewDriver "Alice" "9999990001" sedan (Location.make 12.5 77.5) 4.5;
    NewDriver "Bob" "9999990002" sedan (Location.make 12.75 77.5) 4.75;
    RegisterDriver 0;
    RegisterDriver 1;
    NewRider "Eve" "8888880001" (Location.make 12.5 77.5);
    RequestRide 0 (Location.make 12.5 77.5) (Location.make 15.5 81.5) SEDAN ].

Definition demo_trip : list Op :=
  demo_setup ++
  [ UpdateRideStatus "1" EN_ROUTE_TO_PICKUP;
    UpdateRideStatus "1" IN_PROGRESS;
    CompleteRide "1" ].

(** The status of the ride object [r]. *)
Definition status_of (r : ptr) (w : World) : option RideStatus :=
  Ride.status <$> rides w !! r.

(** The driver of the ride object [r]. *)
Definition driver_of (r : ptr) (w : World) : option (option ptr) :=
  Ride.driver <$> rides w !! r.

(** The state after the demo trip, and its ride. *)
Definition demo_world : World := default init (run demo_trip init).
Definition demo_ride : Ride.t :=
  Ride.make "1" 0 (Some 0) (Location.make 12.5 77.5) (Location.make 15.5 81.5)
            SEDAN COMPLETED 5 125 true
            [RiderNotificationService; DriverNotificationService].

(** The objects of a state: everything but the console. *)
Definition fields (w : World) :=
  (idCounter w, rideCounter w, drivers w, riders w, rides w, dispatch w).

(** The ride object [requestRide] leaves behind when a driver was chosen. *)
Definition assigned_ride (n : Z) (rider : ptr) (pickup drop : Location.t)
    (type : VehicleType) (chosenDriver : ptr) : Ride.t :=
  Ride.with_status DRIVER_ASSIGNED
    (Ride.with_driver (Some chosenDriver)
       (Ride.attachObserver DriverNotificationService
          (Ride.attachObserver RiderNotificationService
             (Ride.new (to_string n) rider pickup drop type)))).

(** The ride object [requestRide] leaves behind when no driver was chosen. *)
Definition cancelled_ride (n : Z) (rider : ptr) (pickup drop : Location.t)
    (type : VehicleType) : Ride.t :=
  Ride.with_status CANCELLED (Ride.new (to_string n) rider pickup drop type).

(** The pointers and identifiers the service holds designate what they
    should: available drivers exist and are [AVAILABLE]; an ongoing ride
    exists and has an existing rider and an existing driver; the keys of the
    ongoing registry were drawn from the ride counter. *)
Record wf (w : World) : Prop := mk_wf {
  wf_available : ∀ p, p ∈ availableDrivers (dispatch w) → p < length (drivers w);
  wf_status : ∀ p d, p ∈ availableDrivers (dispatch w) →
                drivers w !! p = Some d → Driver.status d = AVAILABLE;
  wf_ongoing : ∀ rideId r, ongoingRides (dispatch w) !! rideId = Some r →
                 ∃ ride, rides w !! r = Some ride ∧
                   Ride.rider ride < length (riders w) ∧
                   ∃ dp, Ride.driver ride = Some dp ∧ dp < length (drivers w);
  wf_ids : ∀ rideId r, ongoingRides (dispatch w) !! rideId = Some r →
             ∃ n, rideId = to_string n ∧ (n ≤ rideCounter w)%Z
}.

(** The driver [p] exists and, when [AVAILABLE], is in the available list. *)
Definition tracked (w : World) (p : ptr) : Prop :=
  p < length (drivers w) ∧
  ∀ d, drivers w !! p = Some d → Driver.status d = AVAILABLE →
       p ∈ availableDrivers (dispatch w).

(** C2 as the specification words it, for the states a program reaches. *)
Definition pool_claim (ops : list Op) : Prop :=
  ∀ w, run ops init = Some w →
  ∀ p d, drivers w !! p = Some d →
    (p ∈ availableDrivers (dispatch w) ↔ Driver.status d = AVAILABLE).

(** The state after [demo_setup]: Alice on a trip, Bob available. *)
Definition setup_world : World := default init (run demo_setup init).

(** The outcome of the matching query [requestRide] makes in state [w]. *)
Definition match_driver (w : World) (request : RideRequest.t) : option (option ptr) :=
  cands ← candidates w;
  Some (chooseDriver (matchingStrategy (dispatch w)) request cands).

(** The message of the payment-failure branch. *)
Definition payment_failed (e : Event) : bool :=
  match e with PaymentFailed _ => true | _ => false end.

(** The payment-failure branch never ran: its message was never printed. *)
Definition no_payment_failure (w : World) : Prop :=
  Forall (λ e, payment_failed e = false) (console w).

(** The candidates that pass the guard of a request. *)
Definition matching (request : RideRequest.t) (cands : Candidates) : Candidates :=
  filter (λ c, matches request c.2 = true) cands.

(** A double that is not below zero: zero, positive, [+infinity] or NaN. *)
Definition not_negative (x : float) : Prop := dlt x 0 = false.

(** The three phases of a ride object [i] in a state: dropped at the request
    for want of a driver; in the ongoing registry under its identifier; or
    in the completed archive. *)
Definition unmatched_ride (w : World) (i : ptr) (ride : Ride.t) : Prop :=
  Ride.driver ride = None ∧ Ride.status ride = CANCELLED ∧
  Ride.observers ride = [] ∧
  Ride.fare ride = 0%float ∧ Ride.paid ride = false ∧
  ongoingRides (dispatch w) !! Ride.id ride = None ∧
  i ∉ completedRides (dispatch w).

Definition ongoing_ride (w : World) (i : ptr) (ride : Ride.t) : Prop :=
  is_Some (Ride.driver ride) ∧
  Ride.observers ride = [RiderNotificationService; DriverNotificationService] ∧
  Ride.fare ride = 0%float ∧ Ride.paid ride = false ∧
  ongoingRides (dispatch w) !! Ride.id ride = Some i ∧
  i ∉ completedRides (dispatch w).

Definition archived_ride (w : World) (i : ptr) (ride : Ride.t) : Prop :=
  is_Some (Ride.driver ride) ∧
  Ride.observers ride = [RiderNotificationService; DriverNotificationService] ∧
  Ride.status ride = COMPLETED ∧ Ride.paid ride = true ∧
  ongoingRides (dispatch w) !! Ride.id ride = None ∧
  i ∈ completedRides (dispatch w).

(** The ride store of a reachable state: the counter counts the rides, the
    ride object [i] carries the identifier [i + 1] and the distance between
    its two locations and is in one of the three phases; the registry maps
    identifiers to the rides that carry them; the archive lists existing
    rides, each once. *)
Record rides_ok (w : World) : Prop := mk_rides_ok {
  ro_counter : rideCounter w = Z.of_nat (length (rides w));
  ro_rides : ∀ i ride, rides w !! i = Some ride →
    Ride.id ride = to_string (Z.of_nat i + 1) ∧
    Ride.distanceKm ride
      = Location.distanceTo (Ride.pickupLocation ride) (Ride.dropLocation ride) ∧
    (unmatched_ride w i ride ∨ ongoing_ride w i ride ∨ archived_ride w i ride);
  ro_registry : ∀ rideId r, ongoingRides (dispatch w) !! rideId = Some r →
    ∃ ride, rides w !! r = Some ride ∧ Ride.id ride = rideId;
  ro_completed : ∀ r, r ∈ completedRides (dispatch w) → r < length (rides w);
  ro_nodup : NoDup (completedRides (dispatch w))
}.

(** The fare [completeRide] computes, spelled out: the base fare of the
    ride, times the multiplier when surge is active, minus the rider's
    discount and clamped at 0 when the rider has one. *)
Definition final_fare (surge : bool) (multiplier : float) (rd : Rider.t)
    (distance perKmRate : float) : float :=
  let base := (BASE_FARE + distance * perKmRate)%float in
  let surged := if surge then (base * multiplier)%float else base in
  if dgt (Rider.discountAmount rd) 0
  then (if dlt (surged - Rider.discountAmount rd) 0
        then 0%float else (surged - Rider.discountAmount rd)%float)
  else surged.

(** The state after completing ride "1" in [setup_world] and running
    [demo_setup] once more. *)
Definition later_world : World :=
  default init (w ← completeRide "1" setup_world; run demo_setup w).

(** The identifiers the [User] constructor has handed out, drivers first. *)
Definition user_ids (w : World) : list Z :=
  (Driver.id <$> drivers w) ++ (Rider.id <$> riders w).

(** The rider of each ride object, in the order of the ride store. *)
Definition ride_riders (w : World) : list ptr := Ride.rider <$> rides w.

(** A list of ride pointers in increasing order. *)
Definition increasing (l : list ptr) : Prop :=
  ∀ a b x y, l !! a = Some x → l !! b = Some y → a < b → x < y.

(** The histories of the riders agree with the ride store: every ride names
    an existing rider, and the history of rider [j] is increasing and holds
    exactly the rides that name [j]. *)
Record histories_ok (w : World) : Prop := mk_histories_ok {
  ho_valid : ∀ i j, ride_riders w !! i = Some j → j < length (riders w);
  ho_history : ∀ j rd, riders w !! j = Some rd →
    increasing (Rider.rideHistory rd) ∧
    ∀ i, i ∈ Rider.rideHistory rd ↔ ride_riders w !! i = Some j
}.

(** * Properties *)

(** ** The order of doubles *)

(** Case analysis on IEEE comparisons: signs, then exponents, then mantissas. *)
Ltac cmp_cases :=
  repeat match goal with s : bool |- _ => destruct s end;
  simpl in *; rewrite ?Pos.compare_cont_spec in *; simpl in *;
  repeat match goal with
  | H : context [Z.compare ?a ?b] |- _ => destruct (Z.compare_spec a b); simpl in H
  | |- context [Z.compare ?a ?b] => destruct (Z.compare_spec a b); simpl
  | H : context [Pos.compare ?a ?b] |- _ => destruct (Pos.compare_spec a b); simpl in H
  | |- context [Pos.compare ?a ?b] => destruct (Pos.compare_spec a b); simpl
  end;
  subst; try congruence; try lia; auto.

Lemma SFcompare_Lt_irrefl a : SFcompare a a ≠ Some Lt.
Proof. destruct a; simpl; cmp_cases. Qed.

Lemma SFcompare_Lt_trans a b c :
  SFcompare a b = Some Lt → SFcompare b c = Some Lt → SFcompare a c = Some Lt.
Proof.
  destruct a as [sa|sa| |sa ma ea], b as [sb|sb| |sb mb eb],
           c as [sc|sc| |sc mc ec]; simpl; intros; cmp_cases.
Qed.

Lemma SFcompare_Lt_negtrans a b c :
  SFcompare a b = Some Lt → c ≠ S754_nan →
  SFcompare a c = Some Lt ∨ SFcompare c b = Some Lt.
Proof.
  destruct a as [sa|sa| |sa ma ea], b as [sb|sb| |sb mb eb],
           c as [sc|sc| |sc mc ec]; simpl; intros; cmp_cases.
Qed.

Lemma dlt_SFcompare a b :
  dlt a b = true ↔ SFcompare (Prim2SF a) (Prim2SF b) = Some Lt.
Proof.
  unfold dlt. rewrite ltb_spec. unfold SFltb.
  destruct (SFcompare _ _) as [[]|]; split; congruence.
Qed.

Lemma dlt_irrefl a : dlt a a = false.
Proof.
  destruct (dlt a a) eqn:E; [|done].
  apply dlt_SFcompare in E. by apply SFcompare_Lt_irrefl in E.
Qed.

Lemma dlt_trans a b c : dlt a b = true → dlt b c = true → dlt a c = true.
Proof. rewrite !dlt_SFcompare. apply SFcompare_Lt_trans. Qed.

Lemma dlt_asym a b : dlt a b = true → dlt b a = false.
Proof.
  intros H. destruct (dlt b a) eqn:E; [|done].
  by rewrite <- (dlt_irrefl a), (dlt_trans a b a).
Qed.

Lemma dlt_not_nan_l a b : dlt a b = true → not_nan a.
Proof.
  rewrite dlt_SFcompare. unfold not_nan. by destruct (Prim2SF a).
Qed.

Lemma dlt_not_nan_r a b : dlt a b = true → not_nan b.
Proof.
  rewrite dlt_SFcompare. unfold not_nan.
  by destruct (Prim2SF a), (Prim2SF b).
Qed.

Lemma dlt_negtrans a b c :
  dlt a b = true → not_nan c → dlt a c = true ∨ dlt c b = true.
Proof. rewrite !dlt_SFcompare. apply SFcompare_Lt_negtrans. Qed.

(** ** Scanning for the best element against a sentinel *)

Section ScanProperties.
Context {C K : Type}.
Variable elig : C → bool.
Variable key : C → K.
Variable better : K → K → bool.
Variable sentinel : K.

Hypothesis better_irrefl : ∀ a, better a a = false.
Hypothesis better_trans :
  ∀ a b c, better a b = true → better b c = true → better a c = true.
Hypothesis better_negtrans :
  ∀ a b c, better a b = true → better c sentinel = true →
           better c b = false → better a c = true.

Lemma scan_inv_step l acc c :
  scan_inv elig key better sentinel l acc →
  scan_inv elig key better sentinel (l ++ [c]) (scan_step elig key better acc c).
Proof using better_irrefl better_trans better_negtrans.
  destruct acc as [[x|] k]; unfold scan_inv, scan_step, qualifies; simpl.
  - intros [-> (i & Hi & Hq & Hmin & Hfirst)].
    assert (Hil : i < length l) by (by apply lookup_lt_Some in Hi).
    destruct (elig c) eqn:Ec; simpl.
    + destruct (better (key c) (key x)) eqn:Eb; simpl.
      * split; [done|]. exists (length l). split_and!.
        -- by rewrite lookup_app_r, Nat.sub_diag.
        -- apply andb_prop in Hq as [_ Hq]. rewrite Ec. simpl. eauto.
        -- intros c' [Hc'| ->%list_elem_of_singleton]%elem_of_app Hel;
             [|by apply better_irrefl].
           destruct (better (key c') (key c)) eqn:E; [|done].
           by rewrite <- (Hmin c' Hc' Hel), (better_trans _ _ _ E Eb).
        -- intros j c' Hj Hlook [Hel Hqc]%andb_prop.
           rewrite lookup_app_l in Hlook by done.
           apply (better_negtrans _ (key x)); [done..|].
           apply Hmin; [|done]. apply list_elem_of_lookup; eauto.
      * split; [done|]. exists i. split_and!; [|done| |].
        -- by rewrite lookup_app_l.
        -- intros c' [Hc'| ->%list_elem_of_singleton]%elem_of_app Hel; eauto.
        -- intros j c' Hj Hlook. rewrite lookup_app_l in Hlook by lia. eauto.
    + split; [done|]. exists i. split_and!; [|done| |].
      * by rewrite lookup_app_l.
      * intros c' [Hc'| ->%list_elem_of_singleton]%elem_of_app Hel;
          [eauto|congruence].
      * intros j c' Hj Hlook. rewrite lookup_app_l in Hlook by lia. eauto.
  - intros [-> Hnone].
    destruct (elig c) eqn:Ec; simpl.
    + destruct (better (key c) sentinel) eqn:Eb; simpl.
      * split; [done|]. exists (length l). split_and!.
        -- by rewrite lookup_app_r, Nat.sub_diag.
        -- by rewrite Ec.
        -- intros c' [Hc'| ->%list_elem_of_singleton]%elem_of_app Hel;
             [|by apply better_irrefl].
           destruct (better (key c') (key c)) eqn:E; [|done].
           specialize (Hnone c' Hc'). rewrite Hel in Hnone. simpl in Hnone.
           by rewrite <- Hnone, (better_trans _ _ _ E Eb).
        -- intros j c' Hj Hlook Hqc.
           rewrite lookup_app_l in Hlook by done.
           rewrite Hnone in Hqc; [done|]. apply list_elem_of_lookup; eauto.
      * split; [done|].
        intros c' [Hc'| ->%list_elem_of_singleton]%elem_of_app; [eauto|].
        by rewrite Ec, Eb.
    + split; [done|].
      intros c' [Hc'| ->%list_elem_of_singleton]%elem_of_app; [eauto|].
      by rewrite Ec.
Qed.

Lemma scan_spec l :
  scan_inv elig key better sentinel l (scan elig key better sentinel l).
Proof using better_irrefl better_trans better_negtrans.
  unfold scan. induction l as [|c l IH] using rev_ind.
  - simpl. split; [done|]. intros c Hc. by apply elem_of_nil in Hc.
  - rewrite fold_left_app. simpl. by apply scan_inv_step.
Qed.
End ScanProperties.

(** ** The matching strategies *)

Section Strategies.
Variable request : RideRequest.t.

Local Abbreviation nearest_scan :=
  (scan (C := ptr * Driver.t) (λ c, matches request c.2)
        (λ c, NearestDriverStrategy.dist request c.2) dlt double_infinity).

Local Abbreviation best_rated_scan :=
  (scan (C := ptr * Driver.t) (λ c, matches request c.2)
        (λ c, Driver.rating c.2) dgt (-1)%float).

Lemma nearest_fold_scan (l : Candidates) (acc : option (ptr * Driver.t) * float) :
  fold_left (NearestDriverStrategy.step request) l (fst <$> acc.1, acc.2)
  = let r := fold_left (scan_step (λ c, matches request c.2)
                          (λ c, NearestDriverStrategy.dist request c.2) dlt) l acc in
    (fst <$> r.1, r.2).
Proof.
  revert acc. induction l as [|c l IH]; intros acc; simpl; [done|].
  rewrite <- IH. f_equal.
  unfold NearestDriverStrategy.step, scan_step. simpl.
  destruct (matches request c.2); [|done].
  by destruct (dlt _ _).
Qed.

Lemma best_rated_fold_scan (l : Candidates) (acc : option (ptr * Driver.t) * float) :
  fold_left (BestRatedDriverStrategy.step request) l (fst <$> acc.1, acc.2)
  = let r := fold_left (scan_step (λ c, matches request c.2)
                          (λ c, Driver.rating c.2) dgt) l acc in
    (fst <$> r.1, r.2).
Proof.
  revert acc. induction l as [|c l IH]; intros acc; simpl; [done|].
  rewrite <- IH. f_equal.
  unfold BestRatedDriverStrategy.step, scan_step. simpl.
  destruct (matches request c.2); [|done].
  by destruct (dgt _ _).
Qed.

Lemma nearest_chooseDriver_scan (l : Candidates) :
  NearestDriverStrategy.chooseDriver request l = fst <$> (nearest_scan l).1.
Proof.
  unfold NearestDriverStrategy.chooseDriver, nearest_scan, scan.
  pose proof (nearest_fold_scan l (None, double_infinity)) as H.
  simpl in H. by rewrite H.
Qed.

Lemma best_rated_chooseDriver_scan (l : Candidates) :
  BestRatedDriverStrategy.chooseDriver request l = fst <$> (best_rated_scan l).1.
Proof.
  unfold BestRatedDriverStrategy.chooseDriver, best_rated_scan, scan.
  pose proof (best_rated_fold_scan l (None, (-1)%float)) as H.
  simpl in H. by rewrite H.
Qed.

Lemma nearest_scan_inv (l : Candidates) :
  scan_inv (λ c, matches request c.2)
           (λ c, NearestDriverStrategy.dist request c.2) dlt double_infinity
           l (nearest_scan l).
Proof.
  apply scan_spec.
  - apply dlt_irrefl.
  - apply dlt_trans.
  - intros a b c Hab Hc Hcb.
    destruct (dlt_negtrans a b c Hab (dlt_not_nan_l _ _ Hc)); congruence.
Qed.

Lemma best_rated_scan_inv (l : Candidates) :
  scan_inv (λ c, matches request c.2) (λ c, Driver.rating c.2) dgt (-1)%float
           l (best_rated_scan l).
Proof.
  apply scan_spec; unfold dgt.
  - apply dlt_irrefl.
  - intros a b c Hab Hbc. by apply (dlt_trans c b a).
  - intros a b c Hab Hc Hcb.
    destruct (dlt_negtrans b a c Hab (dlt_not_nan_r _ _ Hc)); congruence.
Qed.
End Strategies.

(** C3, against the claim: the only candidate passes the guard, but its
    distance is [+infinity], which is not below the initial [minDistance];
    the strategy returns none. *)
Lemma nearest_claim_fails_on_overflow :
  ¬ nearest_claim sedan_request [(0, far_driver)].
Proof.
  intros [_ H].
  destruct H as (p & i & d & Hc & _).
  - exists (0, far_driver). split; [apply list_elem_of_singleton|]; reflexivity.
  - vm_compute in Hc. discriminate.
Qed.

(** C3, amended: [NearestDriverStrategy::chooseDriver] returns none exactly
    when no candidate passes the guard with a distance below [+infinity];
    otherwise it returns such a candidate, no candidate that passes the guard
    is strictly nearer, and every earlier candidate that qualifies is
    strictly farther. *)
Theorem nearest_chooseDriver_spec (request : RideRequest.t) (cands : Candidates) :
  (NearestDriverStrategy.chooseDriver request cands = None ↔
   ∀ c, c ∈ cands → nearest_qualifies request c.2 = false) ∧
  (∀ p, NearestDriverStrategy.chooseDriver request cands = Some p →
     ∃ i d, cands !! i = Some (p, d) ∧ nearest_qualifies request d = true ∧
       (∀ c, c ∈ cands → matches request c.2 = true →
             dlt (NearestDriverStrategy.dist request c.2)
                 (NearestDriverStrategy.dist request d) = false) ∧
       (∀ j c, j < i → cands !! j = Some c →
               nearest_qualifies request c.2 = true →
               dlt (NearestDriverStrategy.dist request d)
                   (NearestDriverStrategy.dist request c.2) = true)).
Proof.
  rewrite nearest_chooseDriver_scan.
  pose proof (nearest_scan_inv request cands) as Hinv.
  unfold scan_inv in Hinv.
  destruct (scan _ _ _ _ cands).1 as [[p d]|]; simpl.
  - destruct Hinv as [_ (i & Hi & Hq & Hmin & Hfirst)]. split.
    + split; [done|]. intros Hnone.
      assert ((p, d) ∈ cands) as Hin by (apply list_elem_of_lookup; eauto).
      apply Hnone in Hin. unfold qualifies in Hq. unfold nearest_qualifies in Hin.
      simpl in *. congruence.
    + intros ? [= <-]. exists i, d. split_and!; [done|exact Hq|exact Hmin|exact Hfirst].
  - destruct Hinv as [_ Hnone]. split; [|done].
    split; [|done]. intros _ c Hc. exact (Hnone c Hc).
Qed.

(** When every candidate that passes the guard has a distance below
    [+infinity], the claim holds as worded. *)
Lemma nearest_claim_finite (request : RideRequest.t) (cands : Candidates) :
  (∀ c, c ∈ cands → matches request c.2 = true →
        dlt (NearestDriverStrategy.dist request c.2) double_infinity = true) →
  nearest_claim request cands.
Proof.
  intros Hfin.
  destruct (nearest_chooseDriver_spec request cands) as [Hnone Hsome].
  split.
  - intros Hno. apply Hnone. intros c Hc. unfold nearest_qualifies.
    by rewrite (Hno c Hc).
  - intros (c & Hc & Hm).
    destruct (NearestDriverStrategy.chooseDriver request cands) as [p|] eqn:E.
    + destruct (Hsome p eq_refl) as (i & d & Hi & Hq & Hmin & Hfirst).
      exists p, i, d. apply andb_prop in Hq as [Hq1 Hq2].
      split_and!; try done.
      intros j c' Hj Hlook Hm'. apply (Hfirst j c' Hj Hlook).
      unfold nearest_qualifies. rewrite Hm'. simpl.
      apply Hfin; [|done]. apply list_elem_of_lookup; eauto.
    + assert (nearest_qualifies request c.2 = false) as Hq by (by apply Hnone).
      unfold nearest_qualifies in Hq. rewrite Hm, (Hfin c Hc Hm) in Hq. done.
Qed.

(** C4, against the claim: the only candidate passes the guard, but its
    rating is not above the initial [bestRating]; the strategy returns none. *)
Lemma best_rated_claim_fails_on_low_rating :
  ¬ best_rated_claim sedan_request [(0, low_rated_driver)].
Proof.
  intros [_ H].
  destruct H as (p & i & d & Hc & _).
  - exists (0, low_rated_driver). split; [apply list_elem_of_singleton|]; reflexivity.
  - vm_compute in Hc. discriminate.
Qed.

(** C4, amended: [BestRatedDriverStrategy::chooseDriver] returns none exactly
    when no candidate passes the guard with a rating above -1; otherwise it
    returns such a candidate, no candidate that passes the guard has a
    strictly higher rating, and every earlier candidate that qualifies has a
    strictly lower one. *)
Theorem best_rated_chooseDriver_spec (request : RideRequest.t) (cands : Candidates) :
  (BestRatedDriverStrategy.chooseDriver request cands = None ↔
   ∀ c, c ∈ cands → best_rated_qualifies request c.2 = false) ∧
  (∀ p, BestRatedDriverStrategy.chooseDriver request cands = Some p →
     ∃ i d, cands !! i = Some (p, d) ∧ best_rated_qualifies request d = true ∧
       (∀ c, c ∈ cands → matches request c.2 = true →
             dgt (Driver.rating c.2) (Driver.rating d) = false) ∧
       (∀ j c, j < i → cands !! j = Some c →
               best_rated_qualifies request c.2 = true →
               dgt (Driver.rating d) (Driver.rating c.2) = true)).
Proof.
  rewrite best_rated_chooseDriver_scan.
  pose proof (best_rated_scan_inv request cands) as Hinv.
  unfold scan_inv in Hinv.
  destruct (scan _ _ _ _ cands).1 as [[p d]|]; simpl.
  - destruct Hinv as [_ (i & Hi & Hq & Hmin & Hfirst)]. split.
    + split; [done|]. intros Hnone.
      assert ((p, d) ∈ cands) as Hin by (apply list_elem_of_lookup; eauto).
      apply Hnone in Hin. unfold qualifies in Hq. unfold best_rated_qualifies in Hin.
      simpl in *. congruence.
    + intros ? [= <-]. exists i, d. split_and!; [done|exact Hq|exact Hmin|exact Hfirst].
  - destruct Hinv as [_ Hnone]. split; [|done].
    split; [|done]. intros _ c Hc. exact (Hnone c Hc).
Qed.

(** When every candidate that passes the guard is rated above -1, the claim
    holds as worded. *)
Lemma best_rated_claim_rated (request : RideRequest.t) (cands : Candidates) :
  (∀ c, c ∈ cands → matches request c.2 = true →
        dgt (Driver.rating c.2) (-1)%float = true) →
  best_rated_claim request cands.
Proof.
  intros Hfin.
  destruct (best_rated_chooseDriver_spec request cands) as [Hnone Hsome].
  split.
  - intros Hno. apply Hnone. intros c Hc. unfold best_rated_qualifies.
    by rewrite (Hno c Hc).
  - intros (c & Hc & Hm).
    destruct (BestRatedDriverStrategy.chooseDriver request cands) as [p|] eqn:E.
    + destruct (Hsome p eq_refl) as (i & d & Hi & Hq & Hmin & Hfirst).
      exists p, i, d. apply andb_prop in Hq as [Hq1 Hq2].
      split_and!; try done.
      intros j c' Hj Hlook Hm'. apply (Hfirst j c' Hj Hlook).
      unfold best_rated_qualifies. rewrite Hm'. simpl.
      apply Hfin; [|done]. apply list_elem_of_lookup; eauto.
    + assert (best_rated_qualifies request c.2 = false) as Hq by (by apply Hnone).
      unfold best_rated_qualifies in Hq. rewrite Hm, (Hfin c Hc Hm) in Hq. done.
Qed.

(** ** The fare pipeline *)

(** The clamp of [DiscountDecorator::calculate]. *)
Lemma clamp_is_max0 (x : float) : is_max0 x (if dlt x 0 then 0%float else x).
Proof.
  unfold is_max0. destruct (dlt x 0) eqn:E.
  - split_and!; [by left|apply dlt_irrefl|by apply dlt_asym].
  - split_and!; [by right|done|apply dlt_irrefl].
Qed.

(** [std::max(0.0, x)] meets the same description. *)
Lemma std_max_is_max0 (x : float) : is_max0 x (if dlt 0 x then x else 0%float).
Proof.
  unfold is_max0. destruct (dlt 0 x) eqn:E.
  - split_and!; [by right|by apply dlt_asym|apply dlt_irrefl].
  - split_and!; [by left|apply dlt_irrefl|done].
Qed.

(** C5: for a ride of distance [d] whose driver's vehicle has rate [r], the
    base stage computes [BASE_FARE + d * r] with [BASE_FARE = 50]; surge [m]
    then discount [disc] computes the maximum of 0 and
    [(BASE_FARE + d * r) * m - disc]; and a discount stage around any chain
    never yields a fare below 0. *)
Theorem fare_pipeline (ds : list Driver.t) (ride : Ride.t) (dp : ptr)
    (drv : Driver.t) (m disc : float) :
  Ride.driver ride = Some dp →
  ds !! dp = Some drv →
  let d := Ride.distanceKm ride in
  let r := Vehicle.farePerKm (Driver.vehicle drv) in
  BASE_FARE = 50%float ∧
  calculate BaseFareCalculator ds ride = Some (BASE_FARE + d * r)%float ∧
  (∃ f, calculate (DiscountDecorator (SurgePricingDecorator BaseFareCalculator m) disc)
                  ds ride = Some f ∧
        is_max0 ((BASE_FARE + d * r) * m - disc)%float f) ∧
  (∀ wrapped g, calculate wrapped ds ride = Some g →
     ∃ f, calculate (DiscountDecorator wrapped disc) ds ride = Some f ∧
          dlt f 0 = false).
Proof.
  intros Hdp Hdrv d r. split; [done|]. split; [|split].
  - simpl. by rewrite Hdp; simpl; rewrite Hdrv.
  - simpl. rewrite Hdp; simpl; rewrite Hdrv; simpl.
    eexists; split; [done|]. apply clamp_is_max0.
  - intros wrapped g Hg. simpl. rewrite Hg. simpl.
    eexists; split; [done|]. apply clamp_is_max0.
Qed.

Lemma fare_pipeline_witness :
  calculate BaseFareCalculator [near_driver] ten_km_ride
  = Some (BASE_FARE + 10 * 15)%float.
Proof.
  exact (proj1 (proj2 (fare_pipeline [near_driver] ten_km_ride 0 near_driver
                         1.5%float 50%float eq_refl eq_refl))).
Defined.

(** Scenario 3 of the specification: surge 1.5 on a base fare of 200, then a
    discount of 50. *)
Example fare_scenario_3 :
  calculate (DiscountDecorator (SurgePricingDecorator BaseFareCalculator 1.5) 50)
            [near_driver] ten_km_ride = Some 250%float.
Proof. reflexivity. Qed.

(** ** The ride state machine *)

Lemma same_objects_refl w : same_objects w w.
Proof. by repeat split. Qed.

Lemma same_objects_print e w : same_objects w (print e w).
Proof. by repeat split. Qed.

Lemma same_objects_trans w1 w2 w3 :
  same_objects w1 w2 → same_objects w2 w3 → same_objects w1 w3.
Proof.
  unfold same_objects. intros (?&?&?&?&?&?) (?&?&?&?&?&?).
  repeat split; congruence.
Qed.

Lemma onRideStatusChanged_same o ride s w w' :
  onRideStatusChanged o ride s w = Some w' → same_objects w w'.
Proof.
  destruct o; simpl; intros H.
  - destruct (riders w !! _); simplify_eq/=. apply same_objects_print.
  - destruct (Ride.driver ride); simplify_eq/=; [|apply same_objects_refl].
    destruct (drivers w !! _); simplify_eq/=. apply same_objects_print.
Qed.

Lemma notify_each_same obs ride s w w' :
  notify_each obs ride s w = Some w' → same_objects w w'.
Proof.
  revert w. induction obs as [|o obs IH]; simpl; intros w H.
  - simplify_eq. apply same_objects_refl.
  - destruct (onRideStatusChanged o ride s w) as [w1|] eqn:E; simplify_eq/=.
    eapply same_objects_trans; [by eapply onRideStatusChanged_same|by apply IH].
Qed.

Lemma printable_same ride w w' :
  same_objects w w' → printable ride w → printable ride w'.
Proof.
  unfold printable. intros (_&_&Hd&Hr&_&_) Hp.
  by rewrite Hd, Hr.
Qed.

Lemma onRideStatusChanged_total o ride s w :
  printable ride w → is_Some (onRideStatusChanged o ride s w).
Proof.
  intros [[rd Hrd] Hdrv]. destruct o; simpl.
  - rewrite Hrd. simpl. eauto.
  - destruct (Ride.driver ride) as [dp|] eqn:E; [|eauto].
    destruct (Hdrv dp eq_refl) as [d Hd]. rewrite Hd. simpl. eauto.
Qed.

Lemma notify_each_total obs ride s w :
  printable ride w → is_Some (notify_each obs ride s w).
Proof.
  revert w. induction obs as [|o obs IH]; simpl; intros w Hp; [eauto|].
  destruct (onRideStatusChanged_total o ride s w Hp) as [w1 Hw1].
  rewrite Hw1. simpl. apply IH.
  eapply printable_same; [by eapply onRideStatusChanged_same|done].
Qed.

Lemma printable_with_status s ride w : printable (Ride.with_status s ride) w ↔ printable ride w.
Proof. done. Qed.

(** [Ride::updateStatus] returns for every status, and stores it. *)
Lemma Ride_updateStatus_returns r s w ride :
  rides w !! r = Some ride → printable ride w →
  ∃ w', Ride_updateStatus r s w = Some w' ∧
        same_objects (with_rides (<[r := Ride.with_status s ride]> (rides w)) w) w'.
Proof.
  intros Hr Hp. unfold Ride_updateStatus, modify_ride. rewrite Hr. simpl.
  unfold Ride_notifyObservers. simpl.
  rewrite list_lookup_insert_eq by (by eapply lookup_lt_Some). simpl.
  destruct (notify_each_total (Ride.observers ride) (Ride.with_status s ride) s
              (with_rides (<[r := Ride.with_status s ride]> (rides w)) w))
    as [w' Hw']; [done|].
  exists w'. split; [done|]. by eapply notify_each_same.
Qed.

(** [Ride::assignDriver] returns for every ride, and stores the driver. *)
Lemma Ride_assignDriver_returns r d w ride :
  rides w !! r = Some ride → printable (Ride.with_driver d ride) w →
  ∃ w', Ride_assignDriver r d w = Some w' ∧
        same_objects
          (with_rides (<[r := Ride.with_status DRIVER_ASSIGNED (Ride.with_driver d ride)]>
                         (rides w)) w) w'.
Proof.
  intros Hr Hp. unfold Ride_assignDriver, modify_ride. rewrite Hr. simpl.
  destruct (Ride_updateStatus_returns r DRIVER_ASSIGNED
              (with_rides (<[r := Ride.with_driver d ride]> (rides w)) w)
              (Ride.with_driver d ride)) as (w' & Hw' & Hsame); [|done|].
  - simpl. apply list_lookup_insert_eq. by eapply lookup_lt_Some.
  - exists w'. split; [done|]. simpl in Hsame.
    by rewrite list_insert_insert_eq in Hsame.
Qed.

(** C1, against the claim: a completed ride goes back to [REQUESTED], and a
    cancelled ride, still in the ongoing registry, goes to [IN_PROGRESS]
    through the service; both calls return and change the status. *)
Lemma updateStatus_leaves_terminal_states :
  spec_transition COMPLETED REQUESTED = false ∧
  spec_transition CANCELLED IN_PROGRESS = false ∧
  (w ← run demo_trip init;
   w' ← Ride_updateStatus 0 REQUESTED w;
   Some (status_of 0 w, status_of 0 w'))
  = Some (Some COMPLETED, Some REQUESTED) ∧
  (w ← run (demo_setup ++ [UpdateRideStatus "1" CANCELLED]) init;
   w' ← updateRideStatus "1" IN_PROGRESS w;
   Some (status_of 0 w, status_of 0 w'))
  = Some (Some CANCELLED, Some IN_PROGRESS).
Proof. split_and!; vm_compute; reflexivity. Qed.

(** C1, amended: [Ride::updateStatus] checks nothing.  For every ride and
    every status, whatever the current one, the call returns, the ride has
    the new status and is otherwise as before, and no other object
    changes.  [DispatchService::updateRideStatus] does the same for a ride
    of the ongoing registry. *)
Theorem updateStatus_accepts_every_status (r : ptr) (newStatus : RideStatus)
    (w : World) (ride : Ride.t) :
  rides w !! r = Some ride →
  printable ride w →
  ∃ w', Ride_updateStatus r newStatus w = Some w' ∧
        rides w' = <[r := Ride.with_status newStatus ride]> (rides w) ∧
        status_of r w' = Some newStatus ∧
        drivers w' = drivers w ∧ riders w' = riders w ∧
        dispatch w' = dispatch w ∧
        (∀ rideId, ongoingRides (dispatch w) !! rideId = Some r →
                   updateRideStatus rideId newStatus w = Some w').
Proof.
  intros Hr Hp.
  destruct (Ride_updateStatus_returns r newStatus w ride Hr Hp)
    as (w' & Hw' & (_ & _ & Hd & Hrd & Hrs & Hdisp)).
  exists w'. simpl in *. split_and!; try done.
  - unfold status_of. rewrite Hrs.
    by rewrite list_lookup_insert_eq by (by eapply lookup_lt_Some).
  - intros rideId Hid. unfold updateRideStatus. by rewrite Hid.
Qed.

Lemma demo_ride_lookup : rides demo_world !! 0 = Some demo_ride.
Proof. vm_compute. reflexivity. Qed.

Lemma demo_ride_printable : printable demo_ride demo_world.
Proof.
  split.
  - vm_compute. eauto.
  - intros dp [= <-]. vm_compute. eauto.
Qed.

Lemma updateStatus_accepts_every_status_witness :
  ∃ w', Ride_updateStatus 0 REQUESTED demo_world = Some w' ∧
        rides w' = <[0 := Ride.with_status REQUESTED demo_ride]> (rides demo_world) ∧
        status_of 0 w' = Some REQUESTED ∧
        drivers w' = drivers demo_world ∧ riders w' = riders demo_world ∧
        dispatch w' = dispatch demo_world ∧
        (∀ rideId, ongoingRides (dispatch demo_world) !! rideId = Some 0 →
                   updateRideStatus rideId REQUESTED demo_world = Some w').
Proof.
  exact (updateStatus_accepts_every_status 0 REQUESTED demo_world demo_ride
           demo_ride_lookup demo_ride_printable).
Defined.

(** C7, against the claim: a ride in progress with driver 0 takes driver 1;
    the call returns, replaces the driver and resets the status. *)
Lemma assignDriver_replaces_driver :
  (w ← run (demo_setup ++ [UpdateRideStatus "1" EN_ROUTE_TO_PICKUP;
                           UpdateRideStatus "1" IN_PROGRESS]) init;
   w' ← Ride_assignDriver 0 (Some 1) w;
   Some (driver_of 0 w, status_of 0 w, driver_of 0 w', status_of 0 w'))
  = Some (Some (Some 0), Some IN_PROGRESS, Some (Some 1), Some DRIVER_ASSIGNED).
Proof. vm_compute. reflexivity. Qed.

(** C7, amended: [Ride::assignDriver] checks nothing.  For every ride,
    whatever its status and whether or not it has a driver, the call
    returns, the ride refers to the given driver and has status
    [DRIVER_ASSIGNED], is otherwise as before, and no other object changes. *)
Theorem assignDriver_always_assigns (r : ptr) (d : option ptr) (w : World)
    (ride : Ride.t) :
  rides w !! r = Some ride →
  printable (Ride.with_driver d ride) w →
  ∃ w', Ride_assignDriver r d w = Some w' ∧
        rides w' = <[r := Ride.with_status DRIVER_ASSIGNED (Ride.with_driver d ride)]>
                     (rides w) ∧
        driver_of r w' = Some d ∧
        status_of r w' = Some DRIVER_ASSIGNED ∧
        drivers w' = drivers w ∧ riders w' = riders w ∧
        dispatch w' = dispatch w.
Proof.
  intros Hr Hp.
  destruct (Ride_assignDriver_returns r d w ride Hr Hp)
    as (w' & Hw' & (_ & _ & Hd & Hrd & Hrs & Hdisp)).
  exists w'. simpl in *. split_and!; try done.
  - unfold driver_of. rewrite Hrs.
    by rewrite list_lookup_insert_eq by (by eapply lookup_lt_Some).
  - unfold status_of. rewrite Hrs.
    by rewrite list_lookup_insert_eq by (by eapply lookup_lt_Some).
Qed.

Lemma demo_ride_printable_1 : printable (Ride.with_driver (Some 1) demo_ride) demo_world.
Proof.
  split.
  - vm_compute. eauto.
  - intros dp [= <-]. vm_compute. eauto.
Qed.

Lemma assignDriver_always_assigns_witness :
  ∃ w', Ride_assignDriver 0 (Some 1) demo_world = Some w' ∧
        rides w' = <[0 := Ride.with_status DRIVER_ASSIGNED
                             (Ride.with_driver (Some 1) demo_ride)]>
                     (rides demo_world) ∧
        driver_of 0 w' = Some (Some 1) ∧
        status_of 0 w' = Some DRIVER_ASSIGNED ∧
        drivers w' = drivers demo_world ∧ riders w' = riders demo_world ∧
        dispatch w' = dispatch demo_world.
Proof.
  exact (assignDriver_always_assigns 0 (Some 1) demo_world demo_ride
           demo_ride_lookup demo_ride_printable_1).
Defined.

(** ** The dispatch service *)

Import DispatchService.

Lemma candidates_lookup w cands i p d :
  candidates w = Some cands → cands !! i = Some (p, d) →
  availableDrivers (dispatch w) !! i = Some p ∧ drivers w !! p = Some d.
Proof.
  unfold candidates. intros Hc%mapM_Some_1 Hi.
  destruct (Forall2_lookup_r _ _ _ _ _ Hc Hi) as (q & Hq & Hf).
  destruct (drivers w !! q) as [d'|] eqn:E; simplify_eq/=. done.
Qed.

Lemma candidates_total w :
  (∀ p, p ∈ availableDrivers (dispatch w) → p < length (drivers w)) →
  is_Some (candidates w).
Proof.
  intros Hv. unfold candidates. apply mapM_is_Some, Forall_forall.
  intros p Hp. unfold compose. destruct (lookup_lt_is_Some_2 _ _ (Hv p Hp)) as [d Hd].
  rewrite Hd. simpl. eauto.
Qed.

Lemma candidates_ext w1 w2 :
  drivers w1 = drivers w2 → dispatch w1 = dispatch w2 →
  candidates w1 = candidates w2.
Proof. unfold candidates. by intros -> ->. Qed.

(** Whatever a strategy returns is one of the candidates, and passes the guard. *)
Lemma chooseDriver_Some s request cands p :
  chooseDriver s request cands = Some p →
  ∃ i d, cands !! i = Some (p, d) ∧ matches request d = true.
Proof.
  destruct s; simpl.
  - rewrite nearest_chooseDriver_scan.
    pose proof (nearest_scan_inv request cands) as Hinv. unfold scan_inv in Hinv.
    destruct (scan _ _ _ _ cands).1 as [[q d]|]; simpl; [|done].
    intros [= <-]. destruct Hinv as [_ (i & Hi & [Hq _]%andb_prop & _)]. eauto.
  - rewrite best_rated_chooseDriver_scan.
    pose proof (best_rated_scan_inv request cands) as Hinv. unfold scan_inv in Hinv.
    destruct (scan _ _ _ _ cands).1 as [[q d]|]; simpl; [|done].
    intros [= <-]. destruct Hinv as [_ (i & Hi & [Hq _]%andb_prop & _)]. eauto.
Qed.

Lemma chooseDriver_available w s request cands p :
  candidates w = Some cands → chooseDriver s request cands = Some p →
  p ∈ availableDrivers (dispatch w) ∧
  ∃ d, drivers w !! p = Some d ∧ Driver.status d = AVAILABLE.
Proof.
  intros Hc (i & d & Hi & Hm)%chooseDriver_Some.
  destruct (candidates_lookup _ _ _ _ _ Hc Hi) as [Ha Hd]. split.
  - apply list_elem_of_lookup. eauto.
  - exists d. split; [done|].
    unfold matches in Hm. apply andb_prop in Hm as [Hm _].
    by apply bool_decide_eq_true in Hm.
Qed.

(** *** What each call does to the objects *)

Lemma Ride_updateStatus_inv r s w w' :
  Ride_updateStatus r s w = Some w' →
  ∃ ride, rides w !! r = Some ride ∧
    same_objects (with_rides (<[r := Ride.with_status s ride]> (rides w)) w) w'.
Proof.
  unfold Ride_updateStatus, modify_ride, Ride_notifyObservers. intros H.
  destruct (rides w !! r) as [ride|] eqn:Hr; simplify_eq/=.
  rewrite list_lookup_insert_eq in H by (by eapply lookup_lt_Some). simpl in H.
  exists ride. split; [done|]. by eapply notify_each_same.
Qed.

Lemma Ride_assignDriver_inv r d w w' :
  Ride_assignDriver r d w = Some w' →
  ∃ ride, rides w !! r = Some ride ∧
    same_objects
      (with_rides (<[r := Ride.with_status DRIVER_ASSIGNED (Ride.with_driver d ride)]>
                     (rides w)) w) w'.
Proof.
  unfold Ride_assignDriver, modify_ride. intros H.
  destruct (rides w !! r) as [ride|] eqn:Hr; simplify_eq/=.
  apply Ride_updateStatus_inv in H as (ride' & Hr' & Hsame). simpl in *.
  rewrite list_lookup_insert_eq in Hr' by (by eapply lookup_lt_Some).
  simplify_eq. rewrite list_insert_insert_eq in Hsame. eauto.
Qed.

Lemma same_objects_fields w w' : same_objects w w' → fields w' = fields w.
Proof. unfold fields. intros (-> & -> & -> & -> & -> & ->). done. Qed.

Lemma registerDriver_inv p w w' :
  registerDriver p w = Some w' →
  ∃ d, drivers w !! p = Some d ∧
    fields w' =
      (idCounter w, rideCounter w,
       <[p := Driver.setStatus AVAILABLE d]> (drivers w), riders w, rides w,
       with_availableDrivers (availableDrivers (dispatch w) ++ [p]) (dispatch w)).
Proof.
  unfold registerDriver, modify_driver. intros H.
  destruct (drivers w !! p) as [d|] eqn:Hd; simplify_eq/=.
  rewrite list_lookup_insert_eq in H by (by eapply lookup_lt_Some).
  simplify_eq/=. eauto.
Qed.

Lemma deregisterDriver_inv p w w' :
  deregisterDriver p w = Some w' →
  ∃ d, drivers w !! p = Some d ∧
    fields w' =
      (idCounter w, rideCounter w,
       <[p := Driver.setStatus OFFLINE d]> (drivers w), riders w, rides w,
       with_availableDrivers (erase_remove p (availableDrivers (dispatch w)))
                             (dispatch w)).
Proof.
  unfold deregisterDriver, modify_driver. intros H.
  destruct (drivers w !! p) as [d|] eqn:Hd; simplify_eq/=.
  rewrite list_lookup_insert_eq in H by (by eapply lookup_lt_Some).
  simplify_eq/=. eauto.
Qed.

Lemma updateRideStatus_inv rideId s r w w' :
  ongoingRides (dispatch w) !! rideId = Some r →
  updateRideStatus rideId s w = Some w' →
  ∃ ride, rides w !! r = Some ride ∧
    fields w' =
      (idCounter w, rideCounter w, drivers w, riders w,
       <[r := Ride.with_status s ride]> (rides w), dispatch w).
Proof.
  unfold updateRideStatus. intros -> (ride & Hr & Hs)%Ride_updateStatus_inv.
  exists ride. split; [done|]. by apply same_objects_fields in Hs.
Qed.

Lemma lookup_snoc {A} (l : list A) (x : A) : (l ++ [x]) !! length l = Some x.
Proof. by apply list_lookup_middle. Qed.

Lemma insert_snoc {A} (l : list A) (x y : A) : <[length l := y]> (l ++ [x]) = l ++ [y].
Proof. rewrite insert_app_r_alt by done. by rewrite Nat.sub_diag. Qed.

Lemma modify_ride_inv p f w w' :
  modify_ride p f w = Some w' →
  ∃ x, rides w !! p = Some x ∧ w' = with_rides (<[p := f x]> (rides w)) w.
Proof.
  unfold modify_ride. intros H.
  destruct (rides w !! p) as [x|]; simplify_eq/=. eauto.
Qed.

Lemma modify_driver_inv p f w w' :
  modify_driver p f w = Some w' →
  ∃ x, drivers w !! p = Some x ∧ w' = with_drivers (<[p := f x]> (drivers w)) w.
Proof.
  unfold modify_driver. intros H.
  destruct (drivers w !! p) as [x|]; simplify_eq/=. eauto.
Qed.

Lemma modify_rider_inv p f w w' :
  modify_rider p f w = Some w' →
  ∃ x, riders w !! p = Some x ∧ w' = with_riders (<[p := f x]> (riders w)) w.
Proof.
  unfold modify_rider. intros H.
  destruct (riders w !! p) as [x|]; simplify_eq/=. eauto.
Qed.

Lemma requestRide_inv rider pickup drop type w r w' :
  requestRide rider pickup drop type w = Some (r, w') →
  ∃ rd n cands,
    riders w !! rider = Some rd ∧
    incr_int (rideCounter w) = Some n ∧
    candidates w = Some cands ∧
    r = length (rides w) ∧
    match chooseDriver (matchingStrategy (dispatch w))
            (RideRequest.make rider pickup drop type) cands with
    | None =>
        fields w' =
          (idCounter w, n, drivers w,
           <[rider := Rider.addRideToHistory r rd]> (riders w),
           rides w ++ [cancelled_ride n rider pickup drop type],
           dispatch w)
    | Some c =>
        ∃ d, drivers w !! c = Some d ∧
        fields w' =
          (idCounter w, n,
           <[c := Driver.setStatus ON_TRIP d]> (drivers w),
           <[rider := Rider.addRideToHistory r rd]> (riders w),
           rides w ++ [assigned_ride n rider pickup drop type c],
           with_ongoingRides
             (<[to_string n := r]> (ongoingRides (dispatch w)))
             (with_availableDrivers
                (erase_remove c (availableDrivers (dispatch w))) (dispatch w)))
    end.
Proof.
  unfold requestRide, createRide, modify_rider. intros H.
  destruct (riders w !! rider) as [rd|] eqn:Hrd; simplify_eq/=.
  destruct (incr_int (rideCounter w)) as [n|] eqn:Hn; simplify_eq/=.
  rewrite Hrd in H. simpl in H.
  match type of H with context [candidates ?w1] =>
    rewrite (candidates_ext w1 w) in H by done end.
  destruct (candidates w) as [cands|] eqn:Hc; simplify_eq/=.
  exists rd, n, cands.
  destruct (chooseDriver _ _ cands) as [c|] eqn:Hch.
  - destruct (Ride_attachObserver _ _ _) as [w1|] eqn:H1; simplify_eq/=.
    destruct (Ride_attachObserver _ _ w1) as [w2|] eqn:H2; simplify_eq/=.
    destruct (Ride_assignDriver _ _ w2) as [w3|] eqn:H3; simplify_eq/=.
    destruct (modify_driver _ _ w3) as [w4|] eqn:H4; simplify_eq/=.
    destruct (rides w4 !! _) as [rideObj|] eqn:H5; simplify_eq/=.
    apply modify_ride_inv in H1 as (x1 & Hx1 & ->). simpl in *.
    rewrite lookup_snoc in Hx1. simplify_eq.
    apply modify_ride_inv in H2 as (x2 & Hx2 & ->). simpl in *.
    rewrite insert_snoc, lookup_snoc in Hx2. simplify_eq.
    apply Ride_assignDriver_inv in H3 as (x3 & Hx3 & Hs3). simpl in *.
    rewrite !insert_snoc, lookup_snoc in Hx3. simplify_eq.
    rewrite !insert_snoc in Hs3.
    apply same_objects_fields in Hs3. unfold fields in Hs3. simpl in Hs3.
    apply modify_driver_inv in H4 as (d & Hd & ->). simpl in *.
    simplify_eq. split_and!; try done.
    exists d. split; [congruence|].
    unfold fields. simpl.
    rewrite H1, lookup_snoc in H5. simplify_eq/=.
    rewrite H, H0, H1, H2, H3. done.
  - rewrite lookup_snoc in H. simpl in H.
    destruct (Ride_updateStatus _ _ _) as [w1|] eqn:H1; simplify_eq/=.
    apply Ride_updateStatus_inv in H1 as (x1 & Hx1 & Hs1). simpl in *.
    rewrite lookup_snoc in Hx1. simplify_eq. rewrite insert_snoc in Hs1.
    apply same_objects_fields in Hs1. split_and!; done.
Qed.

Lemma completeRide_inv rideId r w w' :
  ongoingRides (dispatch w) !! rideId = Some r →
  completeRide rideId w = Some w' →
  ∃ ride rd dp d f,
    rides w !! r = Some ride ∧
    riders w !! Ride.rider ride = Some rd ∧
    Ride.driver ride = Some dp ∧
    drivers w !! dp = Some d ∧
    calculate (fare_chain (surgeActive (dispatch w)) (surgeMultiplier (dispatch w)) rd)
              (drivers w) (Ride.with_status COMPLETED ride) = Some f ∧
    fields w' =
      (idCounter w, rideCounter w,
       <[dp := Driver.setStatus AVAILABLE d]> (drivers w), riders w,
       <[r := Ride.setPaid true (Ride.setFare f (Ride.with_status COMPLETED ride))]>
         (rides w),
       with_completedRides (completedRides (dispatch w) ++ [r])
         (with_ongoingRides (delete rideId (ongoingRides (dispatch w)))
            (with_availableDrivers (availableDrivers (dispatch w) ++ [dp])
               (dispatch w)))).
Proof.
  intros Hr H. unfold completeRide in H. rewrite Hr in H.
  destruct (Ride_updateStatus r COMPLETED w) as [w1|] eqn:E1; simplify_eq/=.
  apply Ride_updateStatus_inv in E1 as (ride & Hride & Hs1).
  apply same_objects_fields in Hs1. unfold fields in Hs1. simpl in Hs1.
  assert (r < length (rides w)) as Hlt by (by eapply lookup_lt_Some).
  injection Hs1 as Eid Erc Edrv Erd Erides Edisp.
  rewrite Erides, Erd, Edrv, Edisp in H.
  rewrite list_lookup_insert_eq in H by done. simpl in H.
  destruct (riders w !! _) as [rd|] eqn:E3; simplify_eq/=.
  destruct (calculate _ _ _) as [f|] eqn:E4; simplify_eq/=.
  unfold modify_ride in H. rewrite Erides in H.
  rewrite list_lookup_insert_eq in H by done. simpl in H.
  destruct (paymentProcessor _) eqn:Hpp. simpl in H.
  rewrite list_lookup_insert_eq in H by (by rewrite length_insert). simpl in H.
  destruct (Ride.driver ride) as [dp|] eqn:E6; simplify_eq/=.
  unfold modify_driver in H. simpl in H. rewrite Edrv in H.
  destruct (drivers w !! dp) as [d|] eqn:E7; simplify_eq/=.
  rewrite list_lookup_insert_eq in H by (by eapply lookup_lt_Some).
  simplify_eq/=.
  exists ride, rd, dp, d, f. split_and!; try done.
  unfold fields. simpl. rewrite Eid, Erc, Erd, Edisp, !list_insert_insert_eq. done.
Qed.

(** *** When the calls return *)

Lemma completeRide_returns rideId r w ride rd dp d :
  ongoingRides (dispatch w) !! rideId = Some r →
  rides w !! r = Some ride →
  riders w !! Ride.rider ride = Some rd →
  Ride.driver ride = Some dp →
  drivers w !! dp = Some d →
  is_Some (completeRide rideId w).
Proof.
  intros Hr Hride Hrd Hdp Hd. unfold completeRide. rewrite Hr.
  assert (printable ride w) as Hp.
  { split; [eauto|]. intros ? ?. simplify_eq. eauto. }
  destruct (Ride_updateStatus_returns r COMPLETED w ride Hride Hp)
    as (w1 & -> & Hs1).
  apply same_objects_fields in Hs1. unfold fields in Hs1. simpl in Hs1.
  assert (r < length (rides w)) as Hlt by (by eapply lookup_lt_Some).
  injection Hs1 as Eid Erc Edrv Erd Erides Edisp. simpl.
  rewrite Erides, Erd, Edrv, Edisp.
  rewrite list_lookup_insert_eq by done. simpl. rewrite Hrd. simpl.
  assert (is_Some (calculate
            (fare_chain (surgeActive (dispatch w)) (surgeMultiplier (dispatch w)) rd)
            (drivers w) (Ride.with_status COMPLETED ride))) as [f Hf].
  { unfold fare_chain.
    destruct (surgeActive _), (Rider.hasDiscount rd); simpl;
      rewrite Hdp; simpl; rewrite Hd; simpl; eauto. }
  rewrite Hf. simpl. unfold modify_ride. rewrite Erides.
  rewrite list_lookup_insert_eq by done. simpl.
  destruct (paymentProcessor _). simpl.
  rewrite list_lookup_insert_eq by (by rewrite length_insert). simpl.
  rewrite Hdp. simpl. unfold modify_driver. simpl. rewrite Edrv, Hd. simpl.
  rewrite list_lookup_insert_eq by (by eapply lookup_lt_Some). simpl. eauto.
Qed.

Lemma requestRide_returns rider pickup drop type w rd :
  riders w !! rider = Some rd →
  (rideCounter w < INT_MAX)%Z →
  (∀ p, p ∈ availableDrivers (dispatch w) → p < length (drivers w)) →
  is_Some (requestRide rider pickup drop type w).
Proof.
  intros Hrd Hn Hav. unfold requestRide, createRide, modify_rider.
  rewrite Hrd. simpl. unfold incr_int. rewrite decide_True by done. simpl.
  rewrite Hrd. simpl.
  match goal with |- context [candidates ?w1] =>
    rewrite (candidates_ext w1 w) by done end.
  destruct (candidates_total w Hav) as [cands Hc]. rewrite Hc. simpl.
  destruct (chooseDriver _ _ cands) as [c|] eqn:Hch.
  - destruct (chooseDriver_available _ _ _ _ _ Hc Hch) as [_ (d & Hd & _)].
    unfold Ride_attachObserver, modify_ride. simpl.
    rewrite lookup_snoc. simpl. rewrite insert_snoc, lookup_snoc. simpl.
    rewrite insert_snoc.
    match goal with |- context [Ride_assignDriver ?r ?dd ?w1] =>
      destruct (Ride_assignDriver_returns r dd w1
        (Ride.attachObserver DriverNotificationService
          (Ride.attachObserver RiderNotificationService
            (Ride.new (to_string (rideCounter w + 1)) rider pickup drop type))))
        as (w3 & -> & Hs3) end.
    { simpl. apply lookup_snoc. }
    { split; simpl.
      - apply lookup_lt_is_Some_2. rewrite length_insert. by eapply lookup_lt_Some.
      - intros ? [= <-]. eauto. }
    simpl in Hs3. rewrite insert_snoc in Hs3.
    apply same_objects_fields in Hs3. unfold fields in Hs3. simpl in Hs3.
    injection Hs3 as Eid Erc Edrv Erd Erides Edisp. simpl.
    unfold modify_driver. rewrite Edrv, Hd. simpl.
    rewrite Erides, lookup_snoc. simpl. eauto.
  - rewrite lookup_snoc. simpl.
    match goal with |- context [Ride_updateStatus ?r ?s ?w1] =>
      destruct (Ride_updateStatus_returns r s w1
        (Ride.new (to_string (rideCounter w + 1)) rider pickup drop type))
        as (w3 & -> & Hs3) end.
    { simpl. apply lookup_snoc. }
    { split; simpl.
      - apply lookup_lt_is_Some_2. rewrite length_insert. by eapply lookup_lt_Some.
      - done. }
    simpl. eauto.
Qed.

(** *** Reachable states *)

Lemma wf_init : wf init.
Proof.
  split; simpl.
  - intros p Hp. by apply elem_of_nil in Hp.
  - intros p d Hp. by apply elem_of_nil in Hp.
  - intros rideId r Hr. by rewrite lookup_empty in Hr.
  - intros rideId r Hr. by rewrite lookup_empty in Hr.
Qed.

(** Reading the fields of a state off an equation on [fields]. *)
Ltac expose w' H :=
  destruct w'; unfold fields in H; simpl in H; simplify_eq.

Lemma wf_fields w w' : fields w' = fields w → wf w → wf w'.
Proof.
  intros H [H1 H2 H3 H4]. unfold fields in H.
  injection H as Eid Erc Edrv Erd Erides Edisp.
  split; rewrite ?Edisp, ?Edrv, ?Erd, ?Erides, ?Erc; done.
Qed.

Lemma incr_int_Some n m : incr_int n = Some m → m = (n + 1)%Z.
Proof. unfold incr_int. case_decide; congruence. Qed.

Lemma lookup_insert_status {ds : list Driver.t} {q p d d'} (f : Driver.t → Driver.t) :
  ds !! q = Some d → <[q := f d]> ds !! p = Some d' →
  (p = q ∧ d' = f d) ∨ (p ≠ q ∧ ds !! p = Some d').
Proof.
  intros Hq Hp. destruct (decide (p = q)) as [->|Hne].
  - rewrite list_lookup_insert_eq in Hp by (by eapply lookup_lt_Some).
    left. split; congruence.
  - rewrite list_lookup_insert_ne in Hp by done. by right.
Qed.

Lemma wf_modify_driver q f w w' :
  (∀ d, Driver.status (f d) = Driver.status d) →
  modify_driver q f w = Some w' → wf w → wf w'.
Proof.
  intros Hf (d & Hd & ->)%modify_driver_inv [H1 H2 H3 H4].
  split; simpl; rewrite ?length_insert; try done.
  intros p d' Hp Hl.
  destruct (lookup_insert_status f Hd Hl) as [[-> ->]|[_ Hl']]; [|eauto].
  rewrite Hf. eauto.
Qed.

Lemma wf_modify_rider q f w w' :
  modify_rider q f w = Some w' → wf w → wf w'.
Proof.
  intros (d & Hd & ->)%modify_rider_inv [H1 H2 H3 H4].
  split; simpl; rewrite ?length_insert; done.
Qed.

Lemma wf_registerDriver q w w' : registerDriver q w = Some w' → wf w → wf w'.
Proof.
  intros (d & Hd & Hf)%registerDriver_inv [H1 H2 H3 H4]. expose w' Hf.
  split; simpl in *; rewrite ?length_insert; try done.
  - intros p [Hp| ->%list_elem_of_singleton]%elem_of_app; [eauto|].
    by eapply lookup_lt_Some.
  - intros p d' Hp Hl.
    destruct (lookup_insert_status _ Hd Hl) as [[-> ->]|[Hne Hl']]; [done|].
    apply elem_of_app in Hp as [Hp|Hp%list_elem_of_singleton]; [eauto|done].
Qed.

Lemma wf_deregisterDriver q w w' : deregisterDriver q w = Some w' → wf w → wf w'.
Proof.
  intros (d & Hd & Hf)%deregisterDriver_inv [H1 H2 H3 H4]. expose w' Hf.
  unfold erase_remove.
  split; simpl in *; rewrite ?length_insert; try done.
  - intros p [_ Hp]%list_elem_of_filter. eauto.
  - intros p d' [Hne Hp]%list_elem_of_filter Hl.
    rewrite list_lookup_insert_ne in Hl by done. eauto.
Qed.

Lemma wf_new_Driver name phone vehicle loc rating w p w' :
  new_Driver name phone vehicle loc rating w = Some (p, w') → wf w → wf w'.
Proof.
  unfold new_Driver. intros H [H1 H2 H3 H4].
  destruct (incr_int (idCounter w)) as [n|]; simplify_eq/=.
  split; simpl; rewrite ?length_app; simpl.
  - intros q Hq. apply H1 in Hq. lia.
  - intros q d Hq Hl. rewrite lookup_app_l in Hl by eauto. eauto.
  - intros rideId r Hr. destruct (H3 _ _ Hr) as (ride & ? & ? & dp & ? & ?).
    exists ride. split_and!; try done. exists dp. split; [done|lia].
  - done.
Qed.

Lemma wf_new_Rider name phone loc w p w' :
  new_Rider name phone loc w = Some (p, w') → wf w → wf w'.
Proof.
  unfold new_Rider. intros H [H1 H2 H3 H4].
  destruct (incr_int (idCounter w)) as [n|]; simplify_eq/=.
  split; simpl; rewrite ?length_app; simpl; try done.
  intros rideId r Hr. destruct (H3 _ _ Hr) as (ride & ? & ? & dp & ? & ?).
  exists ride. split_and!; [done|lia|]. exists dp. done.
Qed.

Lemma wf_updateRideStatus rideId s w w' :
  updateRideStatus rideId s w = Some w' → wf w → wf w'.
Proof.
  intros H Hwf.
  destruct (ongoingRides (dispatch w) !! rideId) as [r|] eqn:Hr.
  - apply (updateRideStatus_inv _ _ _ _ _ Hr) in H as (ride & Hride & Hf).
    destruct Hwf as [H1 H2 H3 H4]. expose w' Hf.
    split; simpl in *; try done.
    intros rideId' r' Hr'.
    destruct (H3 _ _ Hr') as (ride' & Hl & ? & dp & ? & ?).
    destruct (decide (r' = r)) as [->|Hne].
    + simplify_eq. exists (Ride.with_status s ride).
      rewrite list_lookup_insert_eq by (by eapply lookup_lt_Some). eauto.
    + exists ride'. rewrite list_lookup_insert_ne by done. eauto.
  - unfold updateRideStatus in H. rewrite Hr in H. simplify_eq.
    by apply (wf_fields w).
Qed.

Lemma wf_completeRide rideId w w' :
  completeRide rideId w = Some w' → wf w → wf w'.
Proof.
  intros H Hwf.
  destruct (ongoingRides (dispatch w) !! rideId) as [r|] eqn:Hr.
  - apply (completeRide_inv _ _ _ _ Hr) in H
      as (ride & rd & dp & d & f & Hride & Hrd & Hdp & Hd & _ & Hf).
    destruct Hwf as [H1 H2 H3 H4]. expose w' Hf.
    split; simpl in *; rewrite ?length_insert.
    + intros p [Hp| ->%list_elem_of_singleton]%elem_of_app; [eauto|].
      by eapply lookup_lt_Some.
    + intros p d' Hp Hl.
      destruct (lookup_insert_status _ Hd Hl) as [[-> ->]|[Hne Hl']]; [done|].
      apply elem_of_app in Hp as [Hp|Hp%list_elem_of_singleton]; [eauto|done].
    + intros rideId' r' Hr'.
      apply lookup_delete_Some in Hr' as [_ Hr'].
      destruct (H3 _ _ Hr') as (ride' & Hl & ? & dp' & ? & ?).
      destruct (decide (r' = r)) as [->|Hne].
      * simplify_eq.
        exists (Ride.setPaid true (Ride.setFare f (Ride.with_status COMPLETED ride))).
        rewrite list_lookup_insert_eq by (by eapply lookup_lt_Some). eauto.
      * exists ride'. rewrite list_lookup_insert_ne by done. eauto.
    + intros rideId' r' Hr'.
      apply lookup_delete_Some in Hr' as [_ Hr']. eauto.
  - unfold completeRide in H. rewrite Hr in H. simplify_eq.
    by apply (wf_fields w).
Qed.

Lemma wf_requestRide rider pickup drop type w r w' :
  requestRide rider pickup drop type w = Some (r, w') → wf w → wf w'.
Proof.
  intros (rd & n & cands & Hrd & Hn%incr_int_Some & Hc & -> & H)%requestRide_inv
         [H1 H2 H3 H4].
  destruct (chooseDriver _ _ cands) as [c|] eqn:Hch.
  - destruct H as (d & Hd & Hf). expose w' Hf.
    unfold erase_remove.
    split; simpl in *; rewrite ?length_insert, ?length_app; simpl.
    + intros p [_ Hp]%list_elem_of_filter. eauto.
    + intros p d' [Hne Hp]%list_elem_of_filter Hl.
      rewrite list_lookup_insert_ne in Hl by done. eauto.
    + intros rideId' r' Hr'.
      apply lookup_insert_Some in Hr' as [[<- <-]|[Hne Hr']].
      * exists (assigned_ride (rideCounter w + 1) rider pickup drop type c).
        rewrite lookup_snoc. split_and!; [done|by eapply lookup_lt_Some|].
        exists c. split; [done|]. by eapply lookup_lt_Some.
      * destruct (H3 _ _ Hr') as (ride' & Hl & ? & dp' & ? & ?).
        exists ride'. rewrite lookup_app_l by (by eapply lookup_lt_Some). eauto.
    + intros rideId' r' Hr'.
      apply lookup_insert_Some in Hr' as [[<- <-]|[Hne Hr']].
      * exists (rideCounter w + 1)%Z. split; [done|lia].
      * destruct (H4 _ _ Hr') as (m & ? & ?). exists m. split; [done|lia].
  - expose w' H.
    split; simpl in *; rewrite ?length_insert; try done.
    + intros rideId' r' Hr'.
      destruct (H3 _ _ Hr') as (ride' & Hl & ? & dp' & ? & ?).
      exists ride'. rewrite lookup_app_l by (by eapply lookup_lt_Some). eauto.
    + intros rideId' r' Hr'.
      destruct (H4 _ _ Hr') as (m & ? & ?). exists m. split; [done|lia].
Qed.

Lemma step_wf op w w' : step op w = Some w' → wf w → wf w'.
Proof.
  destruct op; simpl; intros H Hwf.
  - destruct (new_Driver _ _ _ _ _ w) as [[p w1]|] eqn:E; simplify_eq/=.
    by eapply wf_new_Driver.
  - destruct (new_Rider _ _ _ w) as [[p w1]|] eqn:E; simplify_eq/=.
    by eapply wf_new_Rider.
  - eapply wf_modify_driver; [|exact H|exact Hwf]; done.
  - eapply wf_modify_driver; [|exact H|exact Hwf]; done.
  - by eapply wf_modify_rider.
  - by eapply wf_modify_rider.
  - by eapply wf_registerDriver.
  - by eapply wf_deregisterDriver.
  - destruct (requestRide _ _ _ _ w) as [[p w1]|] eqn:E; simplify_eq/=.
    by eapply wf_requestRide.
  - by eapply wf_updateRideStatus.
  - by eapply wf_completeRide.
  - simplify_eq. by destruct Hwf.
  - simplify_eq. by destruct Hwf.
  - simplify_eq. by destruct Hwf.
Qed.

Lemma run_app ops1 ops2 w :
  run (ops1 ++ ops2) w = w1 ← run ops1 w; run ops2 w1.
Proof.
  revert w. induction ops1 as [|op ops1 IH]; intros w; simpl; [done|].
  destruct (step op w); simpl; [apply IH|done].
Qed.

Lemma run_snoc ops op w w' :
  run (ops ++ [op]) w = Some w' ↔
  ∃ w1, run ops w = Some w1 ∧ step op w1 = Some w'.
Proof.
  rewrite run_app. split.
  - intros H. destruct (run ops w) as [w1|]; simplify_eq/=.
    exists w1. split; [done|]. by destruct (step op w1).
  - intros (w1 & -> & H). simpl. by rewrite H.
Qed.

Lemma run_wf ops w w' : run ops w = Some w' → wf w → wf w'.
Proof.
  revert w. induction ops as [|op ops IH]; intros w; simpl.
  - by intros [= <-].
  - intros H Hwf. destruct (step op w) as [w1|] eqn:E; simplify_eq/=.
    eapply IH; [done|]. by eapply step_wf.
Qed.

(** *** The available list and the status of drivers *)

Lemma tracked_fields w w' p : fields w' = fields w → tracked w p → tracked w' p.
Proof.
  unfold fields, tracked. intros H.
  injection H as Eid Erc Edrv Erd Erides Edisp. by rewrite Edrv, Edisp.
Qed.

Lemma tracked_modify_driver q f w w' p :
  (∀ d, Driver.status (f d) = Driver.status d) →
  modify_driver q f w = Some w' → tracked w p → tracked w' p.
Proof.
  intros Hf (d & Hd & ->)%modify_driver_inv [Hlt Ht].
  split; simpl; rewrite ?length_insert; [done|].
  intros d' Hl Hs.
  destruct (lookup_insert_status f Hd Hl) as [[-> ->]|[_ Hl']]; [|eauto].
  rewrite Hf in Hs. eauto.
Qed.

Lemma tracked_registerDriver q w w' p :
  registerDriver q w = Some w' → tracked w p ∨ p = q → tracked w' p.
Proof.
  intros (d & Hd & Hf)%registerDriver_inv Hp. expose w' Hf.
  split; simpl in *; rewrite ?length_insert.
  - destruct Hp as [[? _]| ->]; [done|by eapply lookup_lt_Some].
  - intros d' Hl Hs. apply elem_of_app.
    destruct (lookup_insert_status _ Hd Hl) as [[-> ->]|[Hne Hl']].
    + right. by apply list_elem_of_singleton.
    + left. destruct Hp as [[_ Ht]| ->]; [eauto|done].
Qed.

Lemma tracked_deregisterDriver q w w' p :
  deregisterDriver q w = Some w' → tracked w p → tracked w' p.
Proof.
  intros (d & Hd & Hf)%deregisterDriver_inv [Hlt Ht]. expose w' Hf.
  split; simpl in *; rewrite ?length_insert; [done|].
  intros d' Hl Hs.
  destruct (lookup_insert_status _ Hd Hl) as [[-> ->]|[Hne Hl']]; [done|].
  apply list_elem_of_filter. eauto.
Qed.

Lemma tracked_requestRide rider pickup drop type w r w' p :
  requestRide rider pickup drop type w = Some (r, w') → tracked w p → tracked w' p.
Proof.
  intros (rd & n & cands & Hrd & Hn & Hc & -> & H)%requestRide_inv [Hlt Ht].
  destruct (chooseDriver _ _ cands) as [c|] eqn:Hch.
  - destruct H as (d & Hd & Hf). expose w' Hf.
    split; simpl in *; rewrite ?length_insert; [done|].
    intros d' Hl Hs.
    destruct (lookup_insert_status _ Hd Hl) as [[-> ->]|[Hne Hl']]; [done|].
    apply list_elem_of_filter. eauto.
  - expose w' H. by split.
Qed.

Lemma tracked_completeRide rideId w w' p :
  completeRide rideId w = Some w' → tracked w p → tracked w' p.
Proof.
  intros H [Hlt Ht].
  destruct (ongoingRides (dispatch w) !! rideId) as [r|] eqn:Hr.
  - apply (completeRide_inv _ _ _ _ Hr) in H
      as (ride & rd & dp & d & f & Hride & Hrd & Hdp & Hd & _ & Hf).
    expose w' Hf.
    split; simpl in *; rewrite ?length_insert; [done|].
    intros d' Hl Hs. apply elem_of_app.
    destruct (lookup_insert_status _ Hd Hl) as [[-> ->]|[Hne Hl']].
    + right. by apply list_elem_of_singleton.
    + left. eauto.
  - unfold completeRide in H. rewrite Hr in H. simplify_eq. by split.
Qed.

Lemma tracked_step op w w' p : step op w = Some w' → tracked w p → tracked w' p.
Proof.
  destruct op; simpl; intros H Ht.
  - unfold new_Driver in H.
    destruct (incr_int (idCounter w)) as [n|]; simplify_eq/=.
    destruct Ht as [Hlt Ht]. split; simpl; rewrite ?length_app; [lia|].
    intros d Hl. rewrite lookup_app_l in Hl by done. eauto.
  - unfold new_Rider in H.
    destruct (incr_int (idCounter w)) as [n|]; simplify_eq/=. done.
  - eapply tracked_modify_driver; [|exact H|exact Ht]; done.
  - eapply tracked_modify_driver; [|exact H|exact Ht]; done.
  - apply modify_rider_inv in H as (x & _ & ->). done.
  - apply modify_rider_inv in H as (x & _ & ->). done.
  - eapply tracked_registerDriver; eauto.
  - by eapply tracked_deregisterDriver.
  - destruct (requestRide _ _ _ _ w) as [[r w1]|] eqn:E; simplify_eq/=.
    by eapply tracked_requestRide.
  - destruct (ongoingRides (dispatch w) !! rideId) as [r|] eqn:Hr.
    + apply (updateRideStatus_inv _ _ _ _ _ Hr) in H as (ride & Hride & Hf).
      expose w' Hf. done.
    + unfold updateRideStatus in H. rewrite Hr in H. simplify_eq. done.
  - by eapply tracked_completeRide.
  - simplify_eq. done.
  - simplify_eq. done.
  - simplify_eq. done.
Qed.

Lemma tracked_run ops w w' p : run ops w = Some w' → tracked w p → tracked w' p.
Proof.
  revert w. induction ops as [|op ops IH]; intros w; simpl.
  - by intros [= <-].
  - intros H Ht. destruct (step op w) as [w1|] eqn:E; simplify_eq/=.
    eapply IH; [done|]. by eapply tracked_step.
Qed.

(** Once registered, a driver stays tracked. *)
Lemma registered_tracked ops w p :
  run ops init = Some w → RegisterDriver p ∈ ops → tracked w p.
Proof.
  intros Hrun Hin.
  apply list_elem_of_split in Hin as (ops1 & ops2 & ->).
  rewrite run_app in Hrun.
  destruct (run ops1 init) as [w1|] eqn:E1; simplify_eq/=.
  destruct (registerDriver p w1) as [w2|] eqn:E2; simplify_eq/=.
  eapply tracked_run; [done|].
  eapply tracked_registerDriver; eauto.
Qed.

(** C2, against the claim: a driver is constructed [AVAILABLE]; until it is
    registered it is not in the available list. *)
Lemma pool_claim_fails_before_registration :
  ¬ pool_claim [ NewDriver "Alice" "9999990001" sedan (Location.make 12.5 77.5) 4.5;
                 NewDriver "Bob" "9999990002" sedan (Location.make 12.75 77.5) 4.75;
                 RegisterDriver 1 ].
Proof.
  intros H.
  destruct (H _ eq_refl 0 _ eq_refl) as [_ Hin].
  specialize (Hin eq_refl). vm_compute in Hin.
  apply list_elem_of_singleton in Hin. discriminate.
Qed.

(** C2, amended: after every program, every driver in the available list is
    [AVAILABLE], and a driver that was registered at some point is in the
    list if and only if it is [AVAILABLE]. *)
Theorem available_list_matches_status (ops : list Op) (w : World) (p : ptr)
    (d : Driver.t) :
  run ops init = Some w →
  drivers w !! p = Some d →
  (p ∈ availableDrivers (dispatch w) → Driver.status d = AVAILABLE) ∧
  (RegisterDriver p ∈ ops →
   (p ∈ availableDrivers (dispatch w) ↔ Driver.status d = AVAILABLE)).
Proof.
  intros Hrun Hd.
  assert (wf w) as Hwf by (eapply run_wf; [done|apply wf_init]).
  split.
  - intros Hp. by eapply wf_status.
  - intros Hreg. split.
    + intros Hp. by eapply wf_status.
    + destruct (registered_tracked _ _ _ Hrun Hreg) as [_ Ht]. eauto.
Qed.

Lemma available_list_matches_status_witness :
  (1 ∈ availableDrivers (dispatch setup_world) →
   Driver.status (Driver.make 2 "Bob" "9999990002" sedan
                    (Location.make 12.75 77.5) AVAILABLE 4.75) = AVAILABLE) ∧
  (RegisterDriver 1 ∈ demo_setup →
   (1 ∈ availableDrivers (dispatch setup_world) ↔
    Driver.status (Driver.make 2 "Bob" "9999990002" sedan
                     (Location.make 12.75 77.5) AVAILABLE 4.75) = AVAILABLE)).
Proof.
  apply (available_list_matches_status demo_setup setup_world 1).
  - vm_compute. reflexivity.
  - vm_compute. reflexivity.
Defined.

(** *** Registration *)

(** C6, against the claim: registering a driver that is already in the pool
    returns, and the pool holds the driver twice. *)
Lemma registerDriver_twice :
  (w ← run [ NewDriver "Alice" "9999990001" sedan (Location.make 12.5 77.5) 4.5;
             RegisterDriver 0 ] init;
   w' ← registerDriver 0 w;
   Some (availableDrivers (dispatch w), availableDrivers (dispatch w')))
  = Some ([0], [0; 0]).
Proof. vm_compute. reflexivity. Qed.

(** C6, amended: [registerDriver] checks nothing.  For every driver, in the
    pool or not, the call returns, the driver is [AVAILABLE] and is appended
    to the available list, so a driver already listed is listed again;
    the next matching query sees it among its candidates, and it passes the
    guard of every request for its vehicle type.  No rider, ride or registry
    changes. *)
Theorem registerDriver_always_appends (p : ptr) (d : Driver.t) (w : World) :
  drivers w !! p = Some d →
  ∃ w', registerDriver p w = Some w' ∧
    drivers w' = <[p := Driver.setStatus AVAILABLE d]> (drivers w) ∧
    availableDrivers (dispatch w') = availableDrivers (dispatch w) ++ [p] ∧
    (∀ cands, candidates w' = Some cands →
              (p, Driver.setStatus AVAILABLE d) ∈ cands) ∧
    (∀ request, RideRequest.type request = Vehicle.type (Driver.vehicle d) →
                matches request (Driver.setStatus AVAILABLE d) = true) ∧
    riders w' = riders w ∧ rides w' = rides w ∧
    ongoingRides (dispatch w') = ongoingRides (dispatch w) ∧
    completedRides (dispatch w') = completedRides (dispatch w).
Proof.
  intros Hd.
  assert (is_Some (registerDriver p w)) as [w' Hw'].
  { unfold registerDriver, modify_driver. rewrite Hd. simpl.
    rewrite list_lookup_insert_eq by (by eapply lookup_lt_Some). simpl. eauto. }
  exists w'. split; [done|].
  apply registerDriver_inv in Hw' as (d' & Hd' & Hf). simplify_eq.
  expose w' Hf. simpl. split_and!; try done.
  - intros cands Hc. unfold candidates in Hc. simpl in Hc.
    apply mapM_Some_1 in Hc.
    assert ((availableDrivers (dispatch w) ++ [p])
              !! length (availableDrivers (dispatch w)) = Some p) as Hl
      by apply lookup_snoc.
    destruct (Forall2_lookup_l _ _ _ _ _ Hc Hl) as (c & Hcl & Hcf).
    rewrite list_lookup_insert_eq in Hcf by (by eapply lookup_lt_Some).
    simplify_eq/=. apply list_elem_of_lookup. eauto.
  - intros request Hty. unfold matches. simpl.
    rewrite Hty. by rewrite !bool_decide_eq_true_2.
Qed.

Lemma registerDriver_always_appends_witness :
  ∃ w', registerDriver 1 setup_world = Some w' ∧
    availableDrivers (dispatch w') = [1; 1].
Proof.
  destruct (registerDriver_always_appends 1
              (Driver.make 2 "Bob" "9999990002" sedan
                 (Location.make 12.75 77.5) AVAILABLE 4.75) setup_world)
    as (w' & Hw' & _ & Ha & _).
  - vm_compute. reflexivity.
  - exists w'. split; [exact Hw'|]. rewrite Ha. vm_compute. reflexivity.
Defined.

(** *** Requests without a match *)

(** No candidate of the requested type: no strategy finds a driver. *)
Lemma chooseDriver_no_match s request cands :
  (∀ c, c ∈ cands → matches request c.2 = false) →
  chooseDriver s request cands = None.
Proof.
  intros Hno. destruct (chooseDriver s request cands) as [p|] eqn:E; [|done].
  apply chooseDriver_Some in E as (i & d & Hi & Hm).
  assert (matches request (p, d).2 = false) as Hf
    by (apply Hno, list_elem_of_lookup; eauto).
  simpl in Hf. congruence.
Qed.

(** C8: in a state a program reaches, when the matching strategy finds no
    driver, [requestRide] returns a new ride whose status is [CANCELLED] and
    whose driver is unset; the ongoing registry is as before, it has no
    entry under the ride's identifier and none that points to the ride. *)
Theorem requestRide_without_match (ops : list Op) (w : World) (rider : ptr)
    (pickup drop : Location.t) (type : VehicleType) :
  run ops init = Some w →
  is_Some (riders w !! rider) →
  (rideCounter w < INT_MAX)%Z →
  match_driver w (RideRequest.make rider pickup drop type) = Some None →
  ∃ r w' ride,
    requestRide rider pickup drop type w = Some (r, w') ∧
    rides w !! r = None ∧
    rides w' !! r = Some ride ∧
    Ride.status ride = CANCELLED ∧
    Ride.driver ride = None ∧
    ongoingRides (dispatch w') = ongoingRides (dispatch w) ∧
    ongoingRides (dispatch w') !! Ride.id ride = None ∧
    (∀ rideId, ongoingRides (dispatch w') !! rideId ≠ Some r).
Proof.
  intros Hrun [rd Hrd] Hn Hm.
  assert (wf w) as Hwf by (eapply run_wf; [done|apply wf_init]).
  destruct (requestRide_returns rider pickup drop type w rd Hrd Hn
              (wf_available w Hwf)) as [[r w'] Hreq].
  exists r, w', (cancelled_ride (rideCounter w + 1) rider pickup drop type).
  split; [done|].
  destruct (requestRide_inv _ _ _ _ _ _ _ Hreq)
    as (rd' & n & cands & Hrd' & Hn'%incr_int_Some & Hc & Hlen & H).
  unfold match_driver in Hm. rewrite Hc in Hm. simpl in Hm.
  injection Hm as Hm. rewrite Hm in H. clear Hreq. expose w' H. simpl.
  split_and!; try done.
  - by apply lookup_ge_None_2.
  - apply lookup_snoc.
  - destruct (ongoingRides (dispatch w) !! to_string (rideCounter w + 1))
      as [r0|] eqn:E; [|done].
    destruct (wf_ids w Hwf _ _ E) as (m & Heq & Hle).
    apply (inj pretty) in Heq. lia.
  - intros rideId Hr.
    destruct (wf_ongoing w Hwf _ _ Hr) as (ride & Hl%lookup_lt_Some & _). lia.
Qed.

Lemma requestRide_without_match_witness :
  ∃ r w' ride,
    requestRide 0 (Location.make 12.5 77.5) (Location.make 15.5 81.5) BIKE
                setup_world = Some (r, w') ∧
    rides setup_world !! r = None ∧
    rides w' !! r = Some ride ∧
    Ride.status ride = CANCELLED ∧
    Ride.driver ride = None ∧
    ongoingRides (dispatch w') = ongoingRides (dispatch setup_world) ∧
    ongoingRides (dispatch w') !! Ride.id ride = None ∧
    (∀ rideId, ongoingRides (dispatch w') !! rideId ≠ Some r).
Proof.
  apply (requestRide_without_match demo_setup).
  - vm_compute. reflexivity.
  - vm_compute. eauto.
  - vm_compute. reflexivity.
  - vm_compute. reflexivity.
Defined.

(** *** Unknown ride identifiers *)

(** After [completeRide] the identifier is no longer in the ongoing registry. *)
Lemma completeRide_removes rideId w w' :
  completeRide rideId w = Some w' →
  ongoingRides (dispatch w') !! rideId = None.
Proof.
  intros H. destruct (ongoingRides (dispatch w) !! rideId) as [r|] eqn:Hr.
  - destruct (completeRide_inv _ _ _ _ Hr H)
      as (ride & rd & dp & d & f & ? & ? & ? & ? & ? & Hf).
    clear H. expose w' Hf. simpl. apply lookup_delete_eq.
  - unfold completeRide in H. rewrite Hr in H. by simplify_eq.
Qed.

(** C9, against the claim: completing the completed ride "1" again, or
    updating its status, does not fail; both calls return, having printed
    the not-found message. *)
Lemma not_found_calls_return :
  run demo_trip init = Some demo_world ∧
  status_of 0 demo_world = Some COMPLETED ∧
  ∃ w1 w2,
    completeRide "1" demo_world = Some w1 ∧
    updateRideStatus "1" CANCELLED demo_world = Some w2 ∧
    last (console w1) = Some (RideNotFound "1") ∧
    last (console w2) = Some (RideNotFound "1").
Proof.
  split; [vm_compute; reflexivity|]. split; [vm_compute; reflexivity|].
  do 2 eexists. split_and!; vm_compute; reflexivity.
Qed.

(** C9, amended: for a ride identifier that is not in the ongoing registry,
    [updateRideStatus] and [completeRide] return normally, having printed
    the not-found message and nothing else; no driver, rider, ride, counter
    or field of the service changes.  The identifier of a ride that
    [completeRide] has completed is such an identifier. *)
Theorem not_found_changes_nothing (rideId : string) (newStatus : RideStatus)
    (w : World) :
  (∀ w0, completeRide rideId w0 = Some w →
         ongoingRides (dispatch w) !! rideId = None) ∧
  (ongoingRides (dispatch w) !! rideId = None →
   updateRideStatus rideId newStatus w = Some (print (RideNotFound rideId) w) ∧
   completeRide rideId w = Some (print (RideNotFound rideId) w) ∧
   fields (print (RideNotFound rideId) w) = fields w ∧
   console (print (RideNotFound rideId) w) = console w ++ [RideNotFound rideId]).
Proof.
  split.
  - intros w0. apply completeRide_removes.
  - intros Hr. unfold updateRideStatus, completeRide. rewrite Hr. done.
Qed.

Lemma not_found_changes_nothing_witness :
  updateRideStatus "1" CANCELLED demo_world
    = Some (print (RideNotFound "1") demo_world) ∧
  completeRide "1" demo_world = Some (print (RideNotFound "1") demo_world) ∧
  fields (print (RideNotFound "1") demo_world) = fields demo_world ∧
  console (print (RideNotFound "1") demo_world)
    = console demo_world ++ [RideNotFound "1"].
Proof.
  apply (proj2 (not_found_changes_nothing "1" CANCELLED demo_world)).
  vm_compute. reflexivity.
Defined.

(** *** Payment *)

Lemma npf_print e w :
  payment_failed e = false → no_payment_failure w → no_payment_failure (print e w).
Proof.
  unfold no_payment_failure. simpl. intros He Hw.
  apply Forall_app. split; [done|]. by apply Forall_singleton.
Qed.

Lemma npf_console w w' :
  console w' = console w → no_payment_failure w → no_payment_failure w'.
Proof. unfold no_payment_failure. by intros ->. Qed.

Lemma npf_modify_ride p f w w' :
  modify_ride p f w = Some w' → no_payment_failure w → no_payment_failure w'.
Proof. by intros (x & _ & ->)%modify_ride_inv. Qed.

Lemma npf_modify_driver p f w w' :
  modify_driver p f w = Some w' → no_payment_failure w → no_payment_failure w'.
Proof. by intros (x & _ & ->)%modify_driver_inv. Qed.

Lemma npf_modify_rider p f w w' :
  modify_rider p f w = Some w' → no_payment_failure w → no_payment_failure w'.
Proof. by intros (x & _ & ->)%modify_rider_inv. Qed.

Lemma npf_onRideStatusChanged o ride s w w' :
  onRideStatusChanged o ride s w = Some w' →
  no_payment_failure w → no_payment_failure w'.
Proof.
  destruct o; simpl; intros H Hw.
  - destruct (riders w !! _); simplify_eq/=. by apply npf_print.
  - destruct (Ride.driver ride); simplify_eq/=; [|done].
    destruct (drivers w !! _); simplify_eq/=. by apply npf_print.
Qed.

Lemma npf_notify_each obs ride s w w' :
  notify_each obs ride s w = Some w' →
  no_payment_failure w → no_payment_failure w'.
Proof.
  revert w. induction obs as [|o obs IH]; simpl; intros w H Hw.
  - by simplify_eq.
  - destruct (onRideStatusChanged o ride s w) as [w1|] eqn:E; simplify_eq/=.
    eapply IH; [done|]. by eapply npf_onRideStatusChanged.
Qed.

Lemma npf_Ride_updateStatus r s w w' :
  Ride_updateStatus r s w = Some w' →
  no_payment_failure w → no_payment_failure w'.
Proof.
  unfold Ride_updateStatus, Ride_notifyObservers. intros H Hw.
  destruct (modify_ride r _ w) as [w1|] eqn:E1; simplify_eq/=.
  destruct (rides w1 !! r) as [ride|]; simplify_eq/=.
  eapply npf_notify_each; [done|]. by eapply npf_modify_ride.
Qed.

Lemma npf_Ride_assignDriver r d w w' :
  Ride_assignDriver r d w = Some w' →
  no_payment_failure w → no_payment_failure w'.
Proof.
  unfold Ride_assignDriver. intros H Hw.
  destruct (modify_ride r _ w) as [w1|] eqn:E1; simplify_eq/=.
  eapply npf_Ride_updateStatus; [done|]. by eapply npf_modify_ride.
Qed.

(** [DummyPaymentProcessor::processPayment] returns [true], whatever the
    ride and the amount. *)
Lemma processPayment_true pp ride amount w :
  (processPayment pp ride amount w).1 = true.
Proof. by destruct pp. Qed.

Lemma npf_completeRide rideId w w' :
  completeRide rideId w = Some w' →
  no_payment_failure w → no_payment_failure w'.
Proof.
  unfold completeRide. intros H Hw.
  destruct (ongoingRides (dispatch w) !! rideId) as [r|].
  - destruct (Ride_updateStatus r COMPLETED w) as [w1|] eqn:E1; simplify_eq/=.
    apply npf_Ride_updateStatus in E1; [|done].
    destruct (rides w1 !! r) as [rideObj|]; simplify_eq/=.
    destruct (riders w1 !! _) as [rd|]; simplify_eq/=.
    destruct (calculate _ _ _) as [f|]; simplify_eq/=.
    destruct (modify_ride r _ w1) as [w2|] eqn:E2; simplify_eq/=.
    apply npf_modify_ride in E2; [|done].
    destruct (paymentProcessor (dispatch w2)). simpl in H.
    destruct (modify_ride r _ _) as [w3|] eqn:E3; simplify_eq/=.
    apply npf_modify_ride in E3; [|by apply npf_print].
    destruct (Ride.driver rideObj) as [dp|]; simplify_eq/=.
    destruct (modify_driver dp _ _) as [w4|] eqn:E4; simplify_eq/=.
    apply npf_modify_driver in E4; [|by apply npf_print].
    destruct (drivers w4 !! dp) as [d|]; simplify_eq/=.
    by repeat apply npf_print.
  - simplify_eq. by apply npf_print.
Qed.

Lemma npf_requestRide rider pickup drop type w r w' :
  requestRide rider pickup drop type w = Some (r, w') →
  no_payment_failure w → no_payment_failure w'.
Proof.
  unfold requestRide, createRide. intros H Hw.
  destruct (riders w !! rider) as [rd|]; simplify_eq/=.
  destruct (incr_int (rideCounter w)) as [n|]; simplify_eq/=.
  destruct (modify_rider rider _ _) as [w1|] eqn:E1; simplify_eq/=.
  apply npf_modify_rider in E1; [|by apply npf_print].
  destruct (candidates w1) as [cands|]; simplify_eq/=.
  destruct (chooseDriver _ _ cands) as [c|].
  - unfold Ride_attachObserver in H.
    destruct (modify_ride _ _ w1) as [w2|] eqn:E2; simplify_eq/=.
    apply npf_modify_ride in E2; [|done].
    destruct (modify_ride _ _ w2) as [w3|] eqn:E3; simplify_eq/=.
    apply npf_modify_ride in E3; [|done].
    destruct (Ride_assignDriver _ _ w3) as [w4|] eqn:E4; simplify_eq/=.
    apply npf_Ride_assignDriver in E4; [|done].
    destruct (modify_driver c _ w4) as [w5|] eqn:E5; simplify_eq/=.
    apply npf_modify_driver in E5; [|done].
    destruct (rides w5 !! _) as [rideObj|]; simplify_eq/=. done.
  - destruct (rides w1 !! _) as [rideObj|]; simplify_eq/=.
    destruct (Ride_updateStatus _ _ _) as [w2|] eqn:E2; simplify_eq/=.
    eapply npf_Ride_updateStatus; [done|]. by apply npf_print.
Qed.

Lemma npf_step op w w' :
  step op w = Some w' → no_payment_failure w → no_payment_failure w'.
Proof.
  destruct op; simpl; intros H Hw.
  - unfold new_Driver in H.
    destruct (incr_int (idCounter w)) as [n|]; simplify_eq/=. done.
  - unfold new_Rider in H.
    destruct (incr_int (idCounter w)) as [n|]; simplify_eq/=. done.
  - by eapply npf_modify_driver.
  - by eapply npf_modify_driver.
  - by eapply npf_modify_rider.
  - by eapply npf_modify_rider.
  - unfold registerDriver in H.
    destruct (modify_driver d _ w) as [w1|] eqn:E1; simplify_eq/=.
    apply npf_modify_driver in E1; [|done].
    destruct (drivers w1 !! d); simplify_eq/=. by apply npf_print.
  - unfold deregisterDriver in H.
    destruct (modify_driver d _ w) as [w1|] eqn:E1; simplify_eq/=.
    apply npf_modify_driver in E1; [|done].
    destruct (drivers w1 !! d); simplify_eq/=. by apply npf_print.
  - destruct (requestRide _ _ _ _ w) as [[r w1]|] eqn:E; simplify_eq/=.
    by eapply npf_requestRide.
  - unfold updateRideStatus in H.
    destruct (ongoingRides (dispatch w) !! rideId).
    + by eapply npf_Ride_updateStatus.
    + simplify_eq. by apply npf_print.
  - by eapply npf_completeRide.
  - by simplify_eq.
  - by simplify_eq.
  - by simplify_eq.
Qed.

Lemma npf_run ops w w' :
  run ops w = Some w' → no_payment_failure w → no_payment_failure w'.
Proof.
  revert w. induction ops as [|op ops IH]; intros w; simpl.
  - by intros [= <-].
  - intros H Hw. destruct (step op w) as [w1|] eqn:E; simplify_eq/=.
    eapply IH; [done|]. by eapply npf_step.
Qed.

(** C10: the payment processor returns success for every ride and amount;
    in a state a program reaches, [completeRide] on a ride of the ongoing
    registry returns and leaves the ride [COMPLETED] and paid; and the
    message of the payment-failure branch has never been printed. *)
Theorem completeRide_marks_paid (ops : list Op) (w : World) (rideId : string)
    (r : ptr) :
  run ops init = Some w →
  ongoingRides (dispatch w) !! rideId = Some r →
  (∀ pp ride amount w0, (processPayment pp ride amount w0).1 = true) ∧
  paymentProcessor (dispatch w) = DummyPaymentProcessor ∧
  ∃ w' ride,
    completeRide rideId w = Some w' ∧
    rides w' !! r = Some ride ∧
    Ride.paid ride = true ∧
    Ride.status ride = COMPLETED ∧
    no_payment_failure w'.
Proof.
  intros Hrun Hr.
  assert (wf w) as Hwf by (eapply run_wf; [done|apply wf_init]).
  split; [apply processPayment_true|].
  split; [by destruct (paymentProcessor _)|].
  destruct (wf_ongoing w Hwf _ _ Hr)
    as (ride & Hride & [rd Hrd]%lookup_lt_is_Some_2
        & dp & Hdp & [d Hd]%lookup_lt_is_Some_2).
  destruct (completeRide_returns _ _ _ _ _ _ _ Hr Hride Hrd Hdp Hd) as [w' Hw'].
  assert (no_payment_failure w') as Hnpf.
  { eapply npf_completeRide; [done|].
    eapply npf_run; [done|]. apply Forall_nil_2. }
  destruct (completeRide_inv _ _ _ _ Hr Hw')
    as (ride' & rd' & dp' & d' & f & Hride' & _ & _ & _ & _ & Hf).
  assert (r < length (rides w)) as Hlt by (by eapply lookup_lt_Some).
  exists w', (Ride.setPaid true (Ride.setFare f (Ride.with_status COMPLETED ride'))).
  split; [exact Hw'|]. split_and!; try done.
  unfold fields in Hf. injection Hf as _ _ _ _ Erides _.
  rewrite Erides. by apply list_lookup_insert_eq.
Qed.

Lemma completeRide_marks_paid_witness :
  ∃ w' ride,
    completeRide "1" setup_world = Some w' ∧
    rides w' !! 0 = Some ride ∧
    Ride.paid ride = true ∧
    Ride.status ride = COMPLETED ∧
    no_payment_failure w'.
Proof.
  apply (completeRide_marks_paid demo_setup setup_world "1" 0).
  - vm_compute. reflexivity.
  - vm_compute. reflexivity.
Defined.

(** * Further properties of the code *)

(** ** Distances *)

Lemma binary_round_aux_sign mx ex lx :
  match binary_round_aux prec emax false mx ex lx with
  | S754_zero s | S754_infinity s | S754_finite s _ _ => s = false
  | S754_nan => True
  end.
Proof.
  unfold binary_round_aux.
  destruct (shr_fexp _ _ _ _ _) as [mrs' e'].
  destruct (shr_fexp _ _ _ _ _) as [mrs'' e''].
  destruct (shr_m mrs''); [done| |done].
  by destruct (Z.leb _ _).
Qed.

Lemma SFsqrt_not_negative x :
  SFcompare (SFsqrt prec emax x) (S754_zero false) ≠ Some Lt.
Proof.
  destruct x as [[]|[]| |[] m e]; simpl; try done.
  destruct (SFsqrt_core_binary _ _ _ _) as [[mz ez] lz].
  pose proof (binary_round_aux_sign mz ez lz) as H.
  destruct (binary_round_aux _ _ _ _ _ _) as [s|s| |s m' e']; subst; done.
Qed.

Lemma sqrt_not_negative x : not_negative (PrimFloat.sqrt x).
Proof.
  unfold not_negative. destruct (dlt (PrimFloat.sqrt x) 0) eqn:E; [|done].
  apply dlt_SFcompare in E. rewrite sqrt_spec in E.
  by apply SFsqrt_not_negative in E.
Qed.

(** [Location::distanceTo] never returns a number below zero, whatever the
    coordinates; a new ride's [distanceKm] is such a number. *)
Theorem distanceTo_not_negative (a b : Location.t) (rideId : string)
    (rider : ptr) (type : VehicleType) :
  not_negative (Location.distanceTo a b) ∧
  not_negative (Ride.distanceKm (Ride.new rideId rider a b type)).
Proof. split; apply sqrt_not_negative. Qed.

(** ** Matching looks at the candidates that pass the guard only *)

Lemma nearest_fold_matching request (l : Candidates) acc :
  fold_left (NearestDriverStrategy.step request) l acc
  = fold_left (NearestDriverStrategy.step request) (matching request l) acc.
Proof.
  revert acc. unfold matching.
  induction l as [|c l IH]; intros acc; [done|].
  cbn [filter list_filter fold_left]. case_decide as E.
  - apply IH.
  - unfold NearestDriverStrategy.step at 2.
    destruct (matches request c.2); [done|]. apply IH.
Qed.

Lemma best_rated_fold_matching request (l : Candidates) acc :
  fold_left (BestRatedDriverStrategy.step request) l acc
  = fold_left (BestRatedDriverStrategy.step request) (matching request l) acc.
Proof.
  revert acc. unfold matching.
  induction l as [|c l IH]; intros acc; [done|].
  cbn [filter list_filter fold_left]. case_decide as E.
  - apply IH.
  - unfold BestRatedDriverStrategy.step at 2.
    destruct (matches request c.2); [done|]. apply IH.
Qed.

(** Both strategies choose as if the candidates that fail the guard (another
    vehicle type, or a status other than [AVAILABLE]) were not in the list:
    removing them, or inserting more of them anywhere, changes nothing. *)
Theorem chooseDriver_ignores_non_matching (s : MatchingStrategy)
    (request : RideRequest.t) (cands : Candidates) :
  chooseDriver s request cands = chooseDriver s request (matching request cands) ∧
  (∀ cands', matching request cands' = matching request cands →
             chooseDriver s request cands' = chooseDriver s request cands).
Proof.
  assert (∀ l, chooseDriver s request l = chooseDriver s request (matching request l))
    as Hm.
  { intros l. destruct s; simpl.
    - unfold NearestDriverStrategy.chooseDriver. by rewrite nearest_fold_matching.
    - unfold BestRatedDriverStrategy.chooseDriver. by rewrite best_rated_fold_matching. }
  split; [apply Hm|].
  intros cands' Heq. by rewrite (Hm cands'), Heq, <- Hm.
Qed.

(** ** The ride store *)

Lemma rides_ok_init : rides_ok init.
Proof.
  split; simpl; try done.
  - intros r Hr. by apply elem_of_nil in Hr.
  - apply NoDup_nil_2.
Qed.

(** [rides_ok] reads the counter, the rides, the registry and the archive. *)
Lemma rides_ok_frame w w' :
  rideCounter w' = rideCounter w → rides w' = rides w →
  ongoingRides (dispatch w') = ongoingRides (dispatch w) →
  completedRides (dispatch w') = completedRides (dispatch w) →
  rides_ok w → rides_ok w'.
Proof.
  intros E1 E2 E3 E4 [H1 H2 H3 H4 H5].
  split; unfold unmatched_ride, ongoing_ride, archived_ride in *;
    rewrite ?E1, ?E2, ?E3, ?E4; done.
Qed.

Lemma ride_id_inj i j : to_string (Z.of_nat i + 1) = to_string (Z.of_nat j + 1) → i = j.
Proof. intros H%(inj pretty). lia. Qed.

(** A ride of the registry is in the ongoing phase. *)
Lemma registry_ongoing w rideId r :
  rides_ok w → ongoingRides (dispatch w) !! rideId = Some r →
  ∃ ride, rides w !! r = Some ride ∧ Ride.id ride = rideId ∧
          rideId = to_string (Z.of_nat r + 1) ∧ ongoing_ride w r ride.
Proof.
  intros [H1 H2 H3 H4 H5] Hr.
  destruct (H3 _ _ Hr) as (ride & Hride & Hid).
  destruct (H2 _ _ Hride) as (Hid' & _ & [Hu|[Ho|Ha]]).
  - destruct Hu as (_ & _ & _ & _ & _ & Hn & _). congruence.
  - exists ride. split_and!; try done. congruence.
  - destruct Ha as (_ & _ & _ & _ & Hn & _). congruence.
Qed.

Lemma rides_ok_updateRideStatus rideId s w w' :
  updateRideStatus rideId s w = Some w' → rides_ok w → rides_ok w'.
Proof.
  intros H Hok.
  destruct (ongoingRides (dispatch w) !! rideId) as [r|] eqn:Hr.
  - destruct (registry_ongoing _ _ _ Hok Hr) as (ride & Hride & Hid & Hidr & Ho).
    destruct (updateRideStatus_inv _ _ _ _ _ Hr H) as (ride' & Hride' & Hf).
    assert (ride' = ride) as -> by congruence.
    clear H Hride'. destruct Hok as [H1 H2 H3 H4 H5].
    assert (r < length (rides w)) as Hlt by (by eapply lookup_lt_Some).
    expose w' Hf.
    split; unfold unmatched_ride, ongoing_ride, archived_ride in *;
      simpl in *; rewrite ?length_insert; try done.
    + intros i rideX Hi.
      destruct (decide (i = r)) as [->|Hne].
      * rewrite list_lookup_insert_eq in Hi by done. simplify_eq.
        destruct (H2 _ _ Hride) as (? & ? & _). split_and!; try done.
        right; left. exact Ho.
      * rewrite list_lookup_insert_ne in Hi by done. by apply H2.
    + intros rideId' r' Hr'. destruct (H3 _ _ Hr') as (ride0 & Hl & Hid0).
      destruct (decide (r' = r)) as [->|Hne].
      * assert (ride0 = ride) as -> by congruence.
        exists (Ride.with_status s ride).
        by rewrite list_lookup_insert_eq by done.
      * exists ride0. by rewrite list_lookup_insert_ne by done.
  - unfold updateRideStatus in H. rewrite Hr in H. simplify_eq.
    by apply (rides_ok_frame w).
Qed.

Lemma rides_ok_completeRide rideId w w' :
  completeRide rideId w = Some w' → rides_ok w → rides_ok w'.
Proof.
  intros H Hok.
  destruct (ongoingRides (dispatch w) !! rideId) as [r|] eqn:Hr.
  - destruct (registry_ongoing _ _ _ Hok Hr) as (ride & Hride & Hid & Hidr & Ho).
    destruct (completeRide_inv _ _ _ _ Hr H)
      as (ride' & rd & dp & d & f & Hride' & ? & Hdp & ? & ? & Hf).
    assert (ride' = ride) as -> by congruence.
    clear H Hride'. destruct Hok as [K1 K2 K3 K4 K5].
    assert (r < length (rides w)) as Hlt by (by eapply lookup_lt_Some).
    destruct Ho as (Hd & Hobs & Hfare & Hpaid & Hreg & Hnc).
    expose w' Hf.
    split; unfold unmatched_ride, ongoing_ride, archived_ride in *;
      simpl in *; rewrite ?length_insert; try done.
    + intros i rideX Hi.
      destruct (decide (i = r)) as [->|Hne].
      * rewrite list_lookup_insert_eq in Hi by done. simplify_eq.
        destruct (K2 _ _ Hride) as (? & ? & _). split_and!; try done.
        right; right. split_and!; simpl; try done.
        -- apply lookup_delete_eq.
        -- apply elem_of_app. right. by apply list_elem_of_singleton.
      * rewrite list_lookup_insert_ne in Hi by done.
        destruct (K2 _ _ Hi) as (Hidi & Hdist & Hcase).
        assert (Ride.id rideX ≠ Ride.id ride) as Hidne.
        { rewrite Hidi, Hidr. intros E%ride_id_inj. done. }
        split_and!; try done.
        destruct Hcase as [Hu|[Ho|Ha]].
        -- left. destruct Hu as (?&?&?&?&?&?&?). split_and!; try done.
           ++ by rewrite lookup_delete_ne.
           ++ intros [?| ?%list_elem_of_singleton]%elem_of_app; done.
        -- right; left. destruct Ho as (?&?&?&?&?&?). split_and!; try done.
           ++ by rewrite lookup_delete_ne.
           ++ intros [?| ?%list_elem_of_singleton]%elem_of_app; done.
        -- right; right. destruct Ha as (?&?&?&?&?&?). split_and!; try done.
           ++ by rewrite lookup_delete_ne.
           ++ apply elem_of_app. by left.
    + intros rideId' r' [Hne Hr']%lookup_delete_Some.
      destruct (K3 _ _ Hr') as (ride0 & Hl & Hid0).
      destruct (decide (r' = r)) as [->|Hner]; [congruence|].
      exists ride0. by rewrite list_lookup_insert_ne by done.
    + intros r' [Hr'| ->%list_elem_of_singleton]%elem_of_app; eauto.
    + apply NoDup_app. split_and!; [done| |apply NoDup_singleton].
      intros x Hx ->%list_elem_of_singleton. done.
  - unfold completeRide in H. rewrite Hr in H. simplify_eq.
    by apply (rides_ok_frame w).
Qed.

Lemma rides_ok_requestRide rider pickup drop type w r w' :
  requestRide rider pickup drop type w = Some (r, w') → rides_ok w → rides_ok w'.
Proof.
  intros H Hok.
  destruct (requestRide_inv _ _ _ _ _ _ _ H)
    as (rd & n & cands & Hrd & Hn%incr_int_Some & Hc & Hlen & Hcase).
  clear H. destruct Hok as [K1 K2 K3 K4 K5]. subst r.
  assert (n = Z.of_nat (length (rides w)) + 1)%Z as Hnn by lia.
  assert (ongoingRides (dispatch w) !! to_string n = None) as Hfresh.
  { destruct (ongoingRides (dispatch w) !! to_string n) as [r0|] eqn:E; [|done].
    destruct (K3 _ _ E) as (ride0 & Hl & Hid0).
    destruct (K2 _ _ Hl) as (Hid1 & _). rewrite Hid1, Hnn in Hid0.
    apply ride_id_inj in Hid0. apply lookup_lt_Some in Hl. lia. }
  assert (length (rides w) ∉ completedRides (dispatch w)) as Hnc.
  { intros Hin%K4. lia. }
  assert (∀ i ride, rides w !! i = Some ride → Ride.id ride ≠ to_string n) as Hids.
  { intros i ride Hi. destruct (K2 _ _ Hi) as (Hid1 & _). rewrite Hid1, Hnn.
    intros E%ride_id_inj. apply lookup_lt_Some in Hi. lia. }
  destruct (chooseDriver _ _ cands) as [c|].
  - destruct Hcase as (d & Hd & Hf). expose w' Hf.
    split; unfold unmatched_ride, ongoing_ride, archived_ride in *;
      simpl in *; rewrite ?length_app; simpl.
    + lia.
    + intros i ride Hi. apply lookup_app_Some in Hi as [Hi|[Hge Hi]].
      * destruct (K2 _ _ Hi) as (? & ? & Hcase). split_and!; try done.
        rewrite lookup_insert_ne by (by intros E; eapply Hids).
        done.
      * destruct (i - length (rides w)) as [|k] eqn:E; [|by destruct k].
        simpl in Hi. simplify_eq.
        assert (i = length (rides w)) as -> by lia.
        simpl. split_and!; [by rewrite Hnn|done|].
        right; left. split_and!; try done. apply lookup_insert_eq.
    + intros rideId r [[<- <-]|[Hne Hr]]%lookup_insert_Some.
      * eexists. split; [apply lookup_snoc|done].
      * destruct (K3 _ _ Hr) as (ride0 & Hl & Hid0).
        exists ride0. split; [|done]. by apply lookup_app_l_Some.
    + intros r Hr%K4. lia.
    + done.
  - expose w' Hcase.
    split; unfold unmatched_ride, ongoing_ride, archived_ride in *;
      simpl in *; rewrite ?length_app; simpl.
    + lia.
    + intros i ride Hi. apply lookup_app_Some in Hi as [Hi|[Hge Hi]].
      * by apply K2.
      * destruct (i - length (rides w)) as [|k] eqn:E; [|by destruct k].
        simpl in Hi. simplify_eq.
        assert (i = length (rides w)) as -> by lia.
        simpl. split_and!; [by rewrite Hnn|done|].
        left. split_and!; done.
    + intros rideId r Hr. destruct (K3 _ _ Hr) as (ride0 & Hl & Hid0).
      exists ride0. split; [|done]. by apply lookup_app_l_Some.
    + intros r Hr%K4. lia.
    + done.
Qed.

Lemma rides_ok_step op w w' : step op w = Some w' → rides_ok w → rides_ok w'.
Proof.
  destruct op; simpl; intros H Hok.
  - unfold new_Driver in H.
    destruct (incr_int (idCounter w)) as [n|]; simplify_eq/=.
    by apply (rides_ok_frame w).
  - unfold new_Rider in H.
    destruct (incr_int (idCounter w)) as [n|]; simplify_eq/=.
    by apply (rides_ok_frame w).
  - apply modify_driver_inv in H as (x & _ & ->). by apply (rides_ok_frame w).
  - apply modify_driver_inv in H as (x & _ & ->). by apply (rides_ok_frame w).
  - apply modify_rider_inv in H as (x & _ & ->). by apply (rides_ok_frame w).
  - apply modify_rider_inv in H as (x & _ & ->). by apply (rides_ok_frame w).
  - apply registerDriver_inv in H as (x & _ & Hf). expose w' Hf.
    by apply (rides_ok_frame w).
  - apply deregisterDriver_inv in H as (x & _ & Hf). expose w' Hf.
    by apply (rides_ok_frame w).
  - destruct (requestRide _ _ _ _ w) as [[r w1]|] eqn:E; simplify_eq/=.
    by eapply rides_ok_requestRide.
  - by eapply rides_ok_updateRideStatus.
  - by eapply rides_ok_completeRide.
  - simplify_eq. by apply (rides_ok_frame w).
  - simplify_eq. by apply (rides_ok_frame w).
  - simplify_eq. by apply (rides_ok_frame w).
Qed.

Lemma rides_ok_run ops w w' : run ops w = Some w' → rides_ok w → rides_ok w'.
Proof.
  revert w. induction ops as [|op ops IH]; intros w; simpl.
  - by intros [= <-].
  - intros H Hok. destruct (step op w) as [w1|] eqn:E; simplify_eq/=.
    eapply IH; [done|]. by eapply rides_ok_step.
Qed.

Lemma run_init_invariants ops w :
  run ops init = Some w → wf w ∧ rides_ok w.
Proof.
  intros H. split.
  - eapply run_wf; [done|apply wf_init].
  - eapply rides_ok_run; [done|apply rides_ok_init].
Qed.

(** After every program, the ride counter is the number of rides created,
    the ride object [i] carries the identifier [i + 1], no two rides share
    an identifier, and the registry files each ongoing ride under the
    identifier the ride carries. *)
Theorem ride_identifiers (ops : list Op) (w : World) :
  run ops init = Some w →
  rideCounter w = Z.of_nat (length (rides w)) ∧
  (∀ i ride, rides w !! i = Some ride →
             Ride.id ride = to_string (Z.of_nat i + 1)) ∧
  (∀ i j ri rj, rides w !! i = Some ri → rides w !! j = Some rj →
                Ride.id ri = Ride.id rj → i = j) ∧
  (∀ rideId r, ongoingRides (dispatch w) !! rideId = Some r →
               Ride.id <$> rides w !! r = Some rideId).
Proof.
  intros [_ [K1 K2 K3 K4 K5]]%run_init_invariants. split_and!; [done| | |].
  - intros i ride Hi. by destruct (K2 _ _ Hi).
  - intros i j ri rj Hi Hj Heq.
    destruct (K2 _ _ Hi) as [Ei _]. destruct (K2 _ _ Hj) as [Ej _].
    rewrite Ei, Ej in Heq. by apply ride_id_inj.
  - intros rideId r Hr. destruct (K3 _ _ Hr) as (ride & -> & <-). done.
Qed.

Lemma ride_identifiers_witness :
  rideCounter demo_world = Z.of_nat (length (rides demo_world)) ∧
  (∀ i ride, rides demo_world !! i = Some ride →
             Ride.id ride = to_string (Z.of_nat i + 1)) ∧
  (∀ i j ri rj, rides demo_world !! i = Some ri → rides demo_world !! j = Some rj →
                Ride.id ri = Ride.id rj → i = j) ∧
  (∀ rideId r, ongoingRides (dispatch demo_world) !! rideId = Some r →
               Ride.id <$> rides demo_world !! r = Some rideId).
Proof.
  apply (ride_identifiers demo_trip). vm_compute. reflexivity.
Defined.

(** After every program, every ride object is in exactly one phase: without
    a driver, [CANCELLED] and outside registry and archive; or with a
    driver and both observers, in the registry under its identifier; or
    [COMPLETED], paid and in the archive.  Its distance is the distance
    between its pickup and drop locations. *)
Theorem ride_phases (ops : list Op) (w : World) (i : ptr) (ride : Ride.t) :
  run ops init = Some w →
  rides w !! i = Some ride →
  (unmatched_ride w i ride ∨ ongoing_ride w i ride ∨ archived_ride w i ride) ∧
  ¬ (unmatched_ride w i ride ∧ ongoing_ride w i ride) ∧
  ¬ (unmatched_ride w i ride ∧ archived_ride w i ride) ∧
  ¬ (ongoing_ride w i ride ∧ archived_ride w i ride) ∧
  Ride.distanceKm ride
    = Location.distanceTo (Ride.pickupLocation ride) (Ride.dropLocation ride).
Proof.
  intros [_ [K1 K2 K3 K4 K5]]%run_init_invariants Hi.
  destruct (K2 _ _ Hi) as (_ & Hdist & Hcase).
  split_and!; try done.
  - intros [(_&_&_&_&_&Hn&_) (_&_&_&_&Hs&_)]. congruence.
  - intros [(_&_&_&_&_&_&Hn) (_&_&_&_&_&Hs)]. done.
  - intros [(_&_&_&_&Hn&_) (_&_&_&_&Hs&_)]. congruence.
Qed.

Lemma ride_phases_witness :
  (unmatched_ride demo_world 0 demo_ride ∨ ongoing_ride demo_world 0 demo_ride
   ∨ archived_ride demo_world 0 demo_ride) ∧
  ¬ (unmatched_ride demo_world 0 demo_ride ∧ ongoing_ride demo_world 0 demo_ride) ∧
  ¬ (unmatched_ride demo_world 0 demo_ride ∧ archived_ride demo_world 0 demo_ride) ∧
  ¬ (ongoing_ride demo_world 0 demo_ride ∧ archived_ride demo_world 0 demo_ride) ∧
  Ride.distanceKm demo_ride
    = Location.distanceTo (Ride.pickupLocation demo_ride) (Ride.dropLocation demo_ride).
Proof.
  apply (ride_phases demo_trip).
  - vm_compute. reflexivity.
  - vm_compute. reflexivity.
Defined.

(** After every program, the completed archive lists no ride twice; every
    ride it lists is [COMPLETED], paid and out of the ongoing registry; and
    every ride it does not list is unpaid with fare 0. *)
Theorem archive_holds_paid_rides (ops : list Op) (w : World) :
  run ops init = Some w →
  NoDup (completedRides (dispatch w)) ∧
  (∀ r, r ∈ completedRides (dispatch w) →
        ∃ ride, rides w !! r = Some ride ∧ Ride.status ride = COMPLETED ∧
                Ride.paid ride = true ∧
                ongoingRides (dispatch w) !! Ride.id ride = None) ∧
  (∀ i ride, rides w !! i = Some ride → i ∉ completedRides (dispatch w) →
             Ride.fare ride = 0%float ∧ Ride.paid ride = false).
Proof.
  intros [_ [K1 K2 K3 K4 K5]]%run_init_invariants. split_and!; [done| |].
  - intros r Hr. destruct (lookup_lt_is_Some_2 _ _ (K4 r Hr)) as [ride Hride].
    exists ride. split; [done|].
    destruct (K2 _ _ Hride) as (_ & _ & [Hu|[Ho|Ha]]).
    + by destruct Hu as (_&_&_&_&_&_&Hn).
    + by destruct Ho as (_&_&_&_&_&Hn).
    + by destruct Ha as (_&_&?&?&?&_).
  - intros i ride Hi Hn.
    destruct (K2 _ _ Hi) as (_ & _ & [Hu|[Ho|Ha]]).
    + by destruct Hu as (_&_&_&?&?&_).
    + by destruct Ho as (_&_&?&?&_).
    + by destruct Ha as (_&_&_&_&_&?).
Qed.

Lemma archive_holds_paid_rides_witness :
  NoDup (completedRides (dispatch demo_world)) ∧
  (∀ r, r ∈ completedRides (dispatch demo_world) →
        ∃ ride, rides demo_world !! r = Some ride ∧ Ride.status ride = COMPLETED ∧
                Ride.paid ride = true ∧
                ongoingRides (dispatch demo_world) !! Ride.id ride = None) ∧
  (∀ i ride, rides demo_world !! i = Some ride →
             i ∉ completedRides (dispatch demo_world) →
             Ride.fare ride = 0%float ∧ Ride.paid ride = false).
Proof.
  apply (archive_holds_paid_rides demo_trip). vm_compute. reflexivity.
Defined.

(** ** Notifications *)

(** In a state a program reaches, updating the status of an ongoing ride
    returns and prints exactly two messages: the notification of the rider,
    then the notification of the ride's driver, both with the ride's
    identifier and the new status. *)
Theorem updateRideStatus_notifies (ops : list Op) (w : World) (rideId : string)
    (r : ptr) (newStatus : RideStatus) :
  run ops init = Some w →
  ongoingRides (dispatch w) !! rideId = Some r →
  ∃ ride rd dp d w',
    rides w !! r = Some ride ∧
    riders w !! Ride.rider ride = Some rd ∧
    Ride.driver ride = Some dp ∧
    drivers w !! dp = Some d ∧
    updateRideStatus rideId newStatus w = Some w' ∧
    console w' = console w ++ [RiderNotified (Rider.name rd) rideId newStatus;
                               DriverNotified (Driver.name d) rideId newStatus].
Proof.
  intros [Hwf Hok]%run_init_invariants Hr.
  destruct (registry_ongoing _ _ _ Hok Hr)
    as (ride & Hride & Hid & _ & (_ & Hobs & _)).
  destruct (wf_ongoing w Hwf _ _ Hr)
    as (ride' & Hride' & [rd Hrd]%lookup_lt_is_Some_2
        & dp & Hdp & [d Hd]%lookup_lt_is_Some_2).
  assert (ride' = ride) as -> by congruence.
  exists ride, rd, dp, d.
  unfold updateRideStatus, Ride_updateStatus, modify_ride, Ride_notifyObservers.
  rewrite Hr, Hride. simpl.
  rewrite list_lookup_insert_eq by (by eapply lookup_lt_Some). simpl.
  rewrite Hobs. simpl. rewrite Hrd. simpl. rewrite Hdp. simpl. rewrite Hd. simpl.
  eexists. split_and!; try done. simpl. rewrite Hid. by rewrite <- app_assoc.
Qed.

Lemma updateRideStatus_notifies_witness :
  ∃ ride rd dp d w',
    rides setup_world !! 0 = Some ride ∧
    riders setup_world !! Ride.rider ride = Some rd ∧
    Ride.driver ride = Some dp ∧
    drivers setup_world !! dp = Some d ∧
    updateRideStatus "1" IN_PROGRESS setup_world = Some w' ∧
    console w' = console setup_world
                 ++ [RiderNotified (Rider.name rd) "1" IN_PROGRESS;
                     DriverNotified (Driver.name d) "1" IN_PROGRESS].
Proof.
  apply (updateRideStatus_notifies demo_setup).
  - vm_compute. reflexivity.
  - vm_compute. reflexivity.
Defined.

(** [Ride::updateStatus] on a ride with both observers attached. *)
Lemma Ride_updateStatus_both r s w ride rd dp d :
  rides w !! r = Some ride →
  Ride.observers ride = [RiderNotificationService; DriverNotificationService] →
  riders w !! Ride.rider ride = Some rd →
  Ride.driver ride = Some dp →
  drivers w !! dp = Some d →
  Ride_updateStatus r s w
  = Some (print (DriverNotified (Driver.name d) (Ride.id ride) s)
            (print (RiderNotified (Rider.name rd) (Ride.id ride) s)
               (with_rides (<[r := Ride.with_status s ride]> (rides w)) w))).
Proof.
  intros Hride Hobs Hrd Hdp Hd.
  unfold Ride_updateStatus, modify_ride, Ride_notifyObservers.
  rewrite Hride. simpl.
  rewrite list_lookup_insert_eq by (by eapply lookup_lt_Some). simpl.
  rewrite Hobs. simpl. rewrite Hrd. simpl. rewrite Hdp. simpl. by rewrite Hd.
Qed.

(** ** Requests *)

(** A request for which the strategy finds no driver prints the request and
    the cancellation and nothing else: the ride is cancelled before any
    observer is attached, so neither rider nor driver is notified.  The ride
    is still appended to the rider's history. *)
Theorem requestRide_unmatched_is_silent (w : World) (rider : ptr)
    (rd : Rider.t) (pickup drop : Location.t) (type : VehicleType) :
  riders w !! rider = Some rd →
  (rideCounter w < INT_MAX)%Z →
  match_driver w (RideRequest.make rider pickup drop type) = Some None →
  ∃ r w',
    requestRide rider pickup drop type w = Some (r, w') ∧
    console w' = console w ++ [RideRequested (Rider.name rd) type;
                               NoAvailableDrivers (to_string (rideCounter w + 1))] ∧
    riders w' !! rider = Some (Rider.addRideToHistory r rd) ∧
    drivers w' = drivers w ∧
    availableDrivers (dispatch w') = availableDrivers (dispatch w).
Proof.
  intros Hrd Hn Hm.
  unfold match_driver in Hm.
  destruct (candidates w) as [cands|] eqn:Hc; [|done].
  simpl in Hm. injection Hm as Hch.
  unfold requestRide, createRide, modify_rider.
  rewrite Hrd. simpl. unfold incr_int. rewrite decide_True by done. simpl.
  rewrite Hrd. simpl.
  match goal with |- context [candidates ?w1] =>
    rewrite (candidates_ext w1 w) by done end.
  rewrite Hc. simpl. rewrite Hch. rewrite lookup_snoc. simpl.
  unfold Ride_updateStatus, modify_ride, Ride_notifyObservers. simpl.
  rewrite lookup_snoc. simpl. rewrite insert_snoc, lookup_snoc. simpl.
  do 2 eexists. split; [done|]. simpl. split_and!; try done.
  - by rewrite <- app_assoc.
  - apply list_lookup_insert_eq. by eapply lookup_lt_Some.
Qed.

Lemma requestRide_unmatched_is_silent_witness :
  ∃ r w',
    requestRide 0 (Location.make 12.5 77.5) (Location.make 15.5 81.5) BIKE
                setup_world = Some (r, w') ∧
    console w' = console setup_world
                 ++ [RideRequested "Eve" BIKE; NoAvailableDrivers (to_string (1 + 1))] ∧
    riders w' !! 0 = Some (Rider.addRideToHistory r
                             (Rider.make 3 "Eve" "8888880001"
                                (Location.make 12.5 77.5) [0] 0)) ∧
    drivers w' = drivers setup_world ∧
    availableDrivers (dispatch w') = availableDrivers (dispatch setup_world).
Proof.
  apply (requestRide_unmatched_is_silent setup_world 0
           (Rider.make 3 "Eve" "8888880001" (Location.make 12.5 77.5) [0] 0)).
  - vm_compute. reflexivity.
  - vm_compute. reflexivity.
  - vm_compute. reflexivity.
Defined.

(** A request for which the strategy chooses driver [c] returns a new ride
    with status [DRIVER_ASSIGNED], driver [c] and both observers; [c] was
    available with the requested vehicle type, is now [ON_TRIP] and out of
    the available list, which is otherwise as before; the registry gains the
    ride under its identifier; the rider's history gains the ride; and the
    messages printed are the request, then the notification of the rider and
    of the driver. *)
Theorem requestRide_with_match (w : World) (rider : ptr) (rd : Rider.t)
    (pickup drop : Location.t) (type : VehicleType) (c : ptr) :
  riders w !! rider = Some rd →
  (rideCounter w < INT_MAX)%Z →
  match_driver w (RideRequest.make rider pickup drop type) = Some (Some c) →
  ∃ d w',
    requestRide rider pickup drop type w = Some (length (rides w), w') ∧
    drivers w !! c = Some d ∧
    Driver.status d = AVAILABLE ∧
    Vehicle.type (Driver.vehicle d) = type ∧
    rides w' !! length (rides w)
      = Some (assigned_ride (rideCounter w + 1) rider pickup drop type c) ∧
    drivers w' = <[c := Driver.setStatus ON_TRIP d]> (drivers w) ∧
    availableDrivers (dispatch w') = erase_remove c (availableDrivers (dispatch w)) ∧
    (c ∉ availableDrivers (dispatch w')) ∧
    ongoingRides (dispatch w')
      = <[to_string (rideCounter w + 1) := length (rides w)]>
          (ongoingRides (dispatch w)) ∧
    riders w' !! rider = Some (Rider.addRideToHistory (length (rides w)) rd) ∧
    console w'
      = console w ++ [RideRequested (Rider.name rd) type;
                      RiderNotified (Rider.name rd) (to_string (rideCounter w + 1))
                                    DRIVER_ASSIGNED;
                      DriverNotified (Driver.name d) (to_string (rideCounter w + 1))
                                     DRIVER_ASSIGNED].
Proof.
  intros Hrd Hn Hm.
  unfold match_driver in Hm.
  destruct (candidates w) as [cands|] eqn:Hc; [|done].
  simpl in Hm. injection Hm as Hch.
  destruct (chooseDriver_Some _ _ _ _ Hch) as (i & d & Hi & Hmatch).
  destruct (candidates_lookup _ _ _ _ _ Hc Hi) as [Hav Hd].
  apply andb_prop in Hmatch as [Hst%bool_decide_eq_true Hty%bool_decide_eq_true].
  simpl in Hty.
  assert (rider < length (riders w)) as Hlt by (by eapply lookup_lt_Some).
  exists d.
  unfold requestRide, createRide, modify_rider.
  rewrite Hrd. simpl. unfold incr_int. rewrite decide_True by done. simpl.
  rewrite Hrd. simpl.
  match goal with |- context [candidates ?w1] =>
    rewrite (candidates_ext w1 w) by done end.
  rewrite Hc. simpl. rewrite Hch.
  unfold Ride_attachObserver, modify_ride. simpl.
  rewrite lookup_snoc. simpl. rewrite insert_snoc, lookup_snoc. simpl.
  rewrite insert_snoc.
  unfold Ride_assignDriver, modify_ride. simpl. rewrite lookup_snoc. simpl.
  rewrite insert_snoc.
  erewrite Ride_updateStatus_both; simpl;
    [|apply lookup_snoc|done|by apply list_lookup_insert_eq|done|exact Hd].
  unfold modify_driver. simpl. rewrite Hd. simpl.
  rewrite insert_snoc, lookup_snoc. simpl.
  eexists. split; [done|]. simpl. split_and!; try done.
  - apply lookup_snoc.
  - unfold erase_remove. rewrite list_elem_of_filter. by intros [? _].
  - by apply list_lookup_insert_eq.
  - by rewrite <- !app_assoc.
Qed.

Lemma requestRide_with_match_witness :
  ∃ d w',
    requestRide 0 (Location.make 12.5 77.5) (Location.make 15.5 81.5) SEDAN
                demo_world = Some (length (rides demo_world), w') ∧
    drivers demo_world !! 0 = Some d ∧
    Driver.status d = AVAILABLE ∧
    Vehicle.type (Driver.vehicle d) = SEDAN ∧
    rides w' !! length (rides demo_world)
      = Some (assigned_ride (rideCounter demo_world + 1) 0
                (Location.make 12.5 77.5) (Location.make 15.5 81.5) SEDAN 0) ∧
    drivers w' = <[0 := Driver.setStatus ON_TRIP d]> (drivers demo_world) ∧
    availableDrivers (dispatch w')
      = erase_remove 0 (availableDrivers (dispatch demo_world)) ∧
    (0 ∉ availableDrivers (dispatch w')) ∧
    ongoingRides (dispatch w')
      = <[to_string (rideCounter demo_world + 1) := length (rides demo_world)]>
          (ongoingRides (dispatch demo_world)) ∧
    riders w' !! 0
      = Some (Rider.addRideToHistory (length (rides demo_world))
                (Rider.make 3 "Eve" "8888880001" (Location.make 12.5 77.5) [0] 0)) ∧
    console w'
      = console demo_world
        ++ [RideRequested "Eve" SEDAN;
            RiderNotified "Eve" (to_string (rideCounter demo_world + 1)) DRIVER_ASSIGNED;
            DriverNotified (Driver.name d) (to_string (rideCounter demo_world + 1))
                           DRIVER_ASSIGNED].
Proof.
  apply (requestRide_with_match demo_world 0
           (Rider.make 3 "Eve" "8888880001" (Location.make 12.5 77.5) [0] 0)).
  - vm_compute. reflexivity.
  - vm_compute. reflexivity.
  - vm_compute. reflexivity.
Defined.

(** ** Completion *)

(** In a state a program reaches, [completeRide] on a ride of the ongoing
    registry returns, whatever the status of the ride and of its driver.
    The ride is [COMPLETED], paid and carries the fare; it leaves the
    registry and is appended to the archive; the driver is [AVAILABLE] and
    appended to the available list; riders are untouched.  The messages
    printed are the two notifications, the payment, its success, the driver's
    release and the archival, in this order. *)
Theorem completeRide_archives_and_releases (ops : list Op) (w : World)
    (rideId : string) (r : ptr) :
  run ops init = Some w →
  ongoingRides (dispatch w) !! rideId = Some r →
  ∃ ride rd dp d w',
    let fare := final_fare (surgeActive (dispatch w)) (surgeMultiplier (dispatch w))
                  rd (Ride.distanceKm ride)
                  (Vehicle.farePerKm (Driver.vehicle d)) in
    rides w !! r = Some ride ∧
    riders w !! Ride.rider ride = Some rd ∧
    Ride.driver ride = Some dp ∧
    drivers w !! dp = Some d ∧
    completeRide rideId w = Some w' ∧
    rides w' = <[r := Ride.setPaid true
                        (Ride.setFare fare (Ride.with_status COMPLETED ride))]>
                 (rides w) ∧
    drivers w' = <[dp := Driver.setStatus AVAILABLE d]> (drivers w) ∧
    riders w' = riders w ∧
    availableDrivers (dispatch w') = availableDrivers (dispatch w) ++ [dp] ∧
    ongoingRides (dispatch w') = delete rideId (ongoingRides (dispatch w)) ∧
    completedRides (dispatch w') = completedRides (dispatch w) ++ [r] ∧
    console w' = console w ++ [RiderNotified (Rider.name rd) rideId COMPLETED;
                               DriverNotified (Driver.name d) rideId COMPLETED;
                               ProcessingPayment fare rideId;
                               PaymentSuccessful (Rider.name rd) fare;
                               DriverNowAvailable (Driver.name d);
                               RideArchived rideId] ∧
    (Rider.hasDiscount rd = true → not_negative fare).
Proof.
  intros [Hwf Hok]%run_init_invariants Hr.
  destruct (registry_ongoing _ _ _ Hok Hr)
    as (ride & Hride & Hid & _ & (_ & Hobs & _)).
  destruct (wf_ongoing w Hwf _ _ Hr)
    as (ride' & Hride' & [rd Hrd]%lookup_lt_is_Some_2
        & dp & Hdp & [d Hd]%lookup_lt_is_Some_2).
  assert (ride' = ride) as -> by congruence. clear Hride'.
  assert (r < length (rides w)) as Hlt by (by eapply lookup_lt_Some).
  assert (dp < length (drivers w)) as Hlt' by (by eapply lookup_lt_Some).
  exists ride, rd, dp, d.
  unfold completeRide. rewrite Hr.
  rewrite (Ride_updateStatus_both r COMPLETED w ride rd dp d) by done. simpl.
  rewrite list_lookup_insert_eq by done. simpl. rewrite Hrd. simpl.
  assert (calculate
            (fare_chain (surgeActive (dispatch w)) (surgeMultiplier (dispatch w)) rd)
            (drivers w) (Ride.with_status COMPLETED ride)
          = Some (final_fare (surgeActive (dispatch w))
                    (surgeMultiplier (dispatch w)) rd (Ride.distanceKm ride)
                    (Vehicle.farePerKm (Driver.vehicle d)))) as ->.
  { unfold fare_chain, final_fare, Rider.hasDiscount, Rider.getDiscountAmount.
    destruct (surgeActive _), (dgt (Rider.discountAmount rd) 0); simpl;
      rewrite Hdp; simpl; rewrite Hd; simpl; done. }
  simpl. unfold modify_ride. simpl.
  rewrite list_lookup_insert_eq by done. simpl.
  destruct (paymentProcessor _). simpl.
  rewrite list_lookup_insert_eq by (by rewrite length_insert). simpl.
  rewrite Hdp. simpl. unfold modify_driver. simpl. rewrite Hd. simpl.
  rewrite list_lookup_insert_eq by done. simpl.
  eexists. split_and!; try done; simpl.
  - by rewrite !list_insert_insert_eq.
  - rewrite Hid. by rewrite <- !app_assoc.
  - unfold final_fare, Rider.hasDiscount. intros ->.
    unfold not_negative. destruct (dlt (_ - _) 0) eqn:E; [apply dlt_irrefl|done].
Qed.

Lemma completeRide_archives_and_releases_witness :
  ∃ ride rd dp d w',
    let fare := final_fare (surgeActive (dispatch setup_world))
                  (surgeMultiplier (dispatch setup_world))
                  rd (Ride.distanceKm ride)
                  (Vehicle.farePerKm (Driver.vehicle d)) in
    rides setup_world !! 0 = Some ride ∧
    riders setup_world !! Ride.rider ride = Some rd ∧
    Ride.driver ride = Some dp ∧
    drivers setup_world !! dp = Some d ∧
    completeRide "1" setup_world = Some w' ∧
    rides w' = <[0 := Ride.setPaid true
                        (Ride.setFare fare (Ride.with_status COMPLETED ride))]>
                 (rides setup_world) ∧
    drivers w' = <[dp := Driver.setStatus AVAILABLE d]> (drivers setup_world) ∧
    riders w' = riders setup_world ∧
    availableDrivers (dispatch w') = availableDrivers (dispatch setup_world) ++ [dp] ∧
    ongoingRides (dispatch w') = delete "1" (ongoingRides (dispatch setup_world)) ∧
    completedRides (dispatch w') = completedRides (dispatch setup_world) ++ [0] ∧
    console w' = console setup_world
                 ++ [RiderNotified (Rider.name rd) "1" COMPLETED;
                     DriverNotified (Driver.name d) "1" COMPLETED;
                     ProcessingPayment fare "1";
                     PaymentSuccessful (Rider.name rd) fare;
                     DriverNowAvailable (Driver.name d);
                     RideArchived "1"] ∧
    (Rider.hasDiscount rd = true → not_negative fare).
Proof.
  apply (completeRide_archives_and_releases demo_setup).
  - vm_compute. reflexivity.
  - vm_compute. reflexivity.
Defined.

(** An identifier at or below the counter that is not in the registry stays
    out of it. *)
Lemma absent_step op w w' n :
  step op w = Some w' → wf w → (n ≤ rideCounter w)%Z →
  ongoingRides (dispatch w) !! to_string n = None →
  (n ≤ rideCounter w')%Z ∧ ongoingRides (dispatch w') !! to_string n = None.
Proof.
  destruct op; simpl; intros H Hwf Hn Hab.
  - unfold new_Driver in H.
    destruct (incr_int (idCounter w)) as [m|]; simplify_eq/=. done.
  - unfold new_Rider in H.
    destruct (incr_int (idCounter w)) as [m|]; simplify_eq/=. done.
  - apply modify_driver_inv in H as (x & _ & ->). done.
  - apply modify_driver_inv in H as (x & _ & ->). done.
  - apply modify_rider_inv in H as (x & _ & ->). done.
  - apply modify_rider_inv in H as (x & _ & ->). done.
  - apply registerDriver_inv in H as (x & _ & Hf). expose w' Hf. done.
  - apply deregisterDriver_inv in H as (x & _ & Hf). expose w' Hf. done.
  - destruct (requestRide _ _ _ _ w) as [[r w1]|] eqn:E; simplify_eq/=.
    destruct (requestRide_inv _ _ _ _ _ _ _ E)
      as (rd & m & cands & Hrd & Hm%incr_int_Some & Hc & Hlen & Hcase).
    destruct (chooseDriver _ _ cands) as [c|].
    + destruct Hcase as (d & Hd & Hf). clear E. expose w' Hf. simpl.
      split; [lia|]. rewrite lookup_insert_ne; [done|].
      intros Heq%(inj pretty). lia.
    + clear E. expose w' Hcase. simpl. split; [lia|done].
  - destruct (ongoingRides (dispatch w) !! rideId) as [r|] eqn:Hr.
    + destruct (updateRideStatus_inv _ _ _ _ _ Hr H) as (ride & _ & Hf).
      clear H. expose w' Hf. done.
    + unfold updateRideStatus in H. rewrite Hr in H. by simplify_eq.
  - destruct (ongoingRides (dispatch w) !! rideId) as [r|] eqn:Hr.
    + destruct (completeRide_inv _ _ _ _ Hr H)
        as (ride & rd & dp & d & f & ? & ? & ? & ? & ? & Hf).
      clear H. expose w' Hf. simpl. split; [done|].
      destruct (decide (rideId = to_string n)) as [->|Hne].
      * apply lookup_delete_eq.
      * by rewrite lookup_delete_ne.
    + unfold completeRide in H. rewrite Hr in H. by simplify_eq.
  - by simplify_eq.
  - by simplify_eq.
  - by simplify_eq.
Qed.

Lemma absent_run ops w w' n :
  run ops w = Some w' → wf w → (n ≤ rideCounter w)%Z →
  ongoingRides (dispatch w) !! to_string n = None →
  ongoingRides (dispatch w') !! to_string n = None.
Proof.
  revert w. induction ops as [|op ops IH]; intros w; simpl.
  - by intros [= <-].
  - intros H Hwf Hn Hab. destruct (step op w) as [w1|] eqn:E; simplify_eq/=.
    destruct (absent_step _ _ _ _ E Hwf Hn Hab) as [Hn' Hab'].
    eapply IH; [done| |done..]. by eapply step_wf.
Qed.

(** The identifier of a ride that was ongoing and has been completed is
    never in the registry again, whatever the program does next: every
    later [updateRideStatus] and [completeRide] on it takes the not-found
    branch. *)
Theorem completed_ride_stays_unknown (ops ops' : list Op) (w w1 w2 : World)
    (rideId : string) (r : ptr) (newStatus : RideStatus) :
  run ops init = Some w →
  ongoingRides (dispatch w) !! rideId = Some r →
  completeRide rideId w = Some w1 →
  run ops' w1 = Some w2 →
  ongoingRides (dispatch w2) !! rideId = None ∧
  updateRideStatus rideId newStatus w2 = Some (print (RideNotFound rideId) w2) ∧
  completeRide rideId w2 = Some (print (RideNotFound rideId) w2).
Proof.
  intros Hrun Hr Hc Hrun'.
  assert (wf w) as Hwf by (eapply run_wf; [done|apply wf_init]).
  destruct (wf_ids w Hwf _ _ Hr) as (n & -> & Hn).
  assert (wf w1) as Hwf1 by (by eapply wf_completeRide).
  assert (ongoingRides (dispatch w2) !! to_string n = None) as Hab.
  { eapply absent_run; [done|done| |by eapply completeRide_removes].
    destruct (completeRide_inv _ _ _ _ Hr Hc)
      as (ride & rd & dp & d & f & ? & ? & ? & ? & ? & Hf).
    unfold fields in Hf. injection Hf as _ -> _ _ _ _. done. }
  split; [done|]. unfold updateRideStatus, completeRide. by rewrite Hab.
Qed.

Lemma completed_ride_stays_unknown_witness :
  ongoingRides (dispatch later_world) !! "1" = None ∧
  updateRideStatus "1" IN_PROGRESS later_world
    = Some (print (RideNotFound "1") later_world) ∧
  completeRide "1" later_world = Some (print (RideNotFound "1") later_world).
Proof.
  apply (completed_ride_stays_unknown demo_setup demo_setup setup_world
           (default init (completeRide "1" setup_world)) _ "1" 0).
  - vm_compute. reflexivity.
  - vm_compute. reflexivity.
  - vm_compute. reflexivity.
  - vm_compute. reflexivity.
Defined.

(** ** The driver pool *)

Lemma erase_remove_absent p (l : list nat) : p ∉ l → erase_remove p l = l.
Proof.
  unfold erase_remove. induction l as [|q l IH]; [done|].
  intros Hn. apply not_elem_of_cons in Hn as [Hne Hn].
  cbn [filter list_filter]. rewrite decide_True by done. f_equal. by apply IH.
Qed.

Lemma erase_remove_snoc p (l : list nat) :
  erase_remove p (l ++ [p]) = erase_remove p l.
Proof.
  unfold erase_remove. rewrite filter_app.
  cbn [filter list_filter]. rewrite decide_False by (by intros ?).
  by rewrite app_nil_r.
Qed.

(** [deregisterDriver] returns for every existing driver, listed or not: the
    driver is [OFFLINE], every entry of the driver leaves the available
    list, and the other entries stay, in their order.  A driver that was not
    listed is set [OFFLINE] all the same, the list being unchanged.  No
    rider, ride or registry changes. *)
Theorem deregisterDriver_removes_every_entry (p : ptr) (d : Driver.t) (w : World) :
  drivers w !! p = Some d →
  ∃ w', deregisterDriver p w = Some w' ∧
    drivers w' = <[p := Driver.setStatus OFFLINE d]> (drivers w) ∧
    availableDrivers (dispatch w')
      = filter (λ q, q ≠ p) (availableDrivers (dispatch w)) ∧
    (p ∉ availableDrivers (dispatch w')) ∧
    (∀ q, q ≠ p → q ∈ availableDrivers (dispatch w')
                  ↔ q ∈ availableDrivers (dispatch w)) ∧
    (p ∉ availableDrivers (dispatch w) →
     availableDrivers (dispatch w') = availableDrivers (dispatch w)) ∧
    riders w' = riders w ∧ rides w' = rides w ∧
    ongoingRides (dispatch w') = ongoingRides (dispatch w) ∧
    completedRides (dispatch w') = completedRides (dispatch w).
Proof.
  intros Hd.
  assert (is_Some (deregisterDriver p w)) as [w' Hw'].
  { unfold deregisterDriver, modify_driver. rewrite Hd. simpl.
    rewrite list_lookup_insert_eq by (by eapply lookup_lt_Some). simpl. eauto. }
  exists w'. split; [done|].
  destruct (deregisterDriver_inv _ _ _ Hw') as (d' & Hd' & Hf).
  assert (d' = d) as -> by congruence. clear Hw'.
  expose w' Hf. simpl. split_and!; try done.
  - unfold erase_remove. rewrite list_elem_of_filter. by intros [? _].
  - intros q Hq. unfold erase_remove. rewrite list_elem_of_filter. tauto.
  - apply erase_remove_absent.
Qed.

Lemma deregisterDriver_removes_every_entry_witness :
  ∃ w', deregisterDriver 1 setup_world = Some w' ∧
        availableDrivers (dispatch w') = [].
Proof.
  destruct (deregisterDriver_removes_every_entry 1
              (Driver.make 2 "Bob" "9999990002" sedan
                 (Location.make 12.75 77.5) AVAILABLE 4.75) setup_world)
    as (w' & Hw' & _ & Ha & _).
  - vm_compute. reflexivity.
  - exists w'. split; [exact Hw'|]. rewrite Ha. vm_compute. reflexivity.
Defined.

(** Registering a driver and deregistering it again leaves the available
    list without any entry of the driver: it is the list as it was when the
    driver was not listed before.  The driver ends [OFFLINE]. *)
Theorem register_then_deregister (p : ptr) (w w1 w2 : World) :
  registerDriver p w = Some w1 →
  deregisterDriver p w1 = Some w2 →
  availableDrivers (dispatch w2) = erase_remove p (availableDrivers (dispatch w)) ∧
  (p ∉ availableDrivers (dispatch w) →
   availableDrivers (dispatch w2) = availableDrivers (dispatch w)) ∧
  Driver.status <$> drivers w2 !! p = Some OFFLINE.
Proof.
  intros (d & Hd & Hf)%registerDriver_inv (d1 & Hd1 & Hf1)%deregisterDriver_inv.
  assert (p < length (drivers w)) as Hlt by (by eapply lookup_lt_Some).
  expose w1 Hf. expose w2 Hf1. simpl in *.
  rewrite erase_remove_snoc. split_and!; [done| |].
  - apply erase_remove_absent.
  - rewrite list_lookup_insert_eq by (by rewrite length_insert). done.
Qed.

Lemma register_then_deregister_witness :
  availableDrivers
    (dispatch (default init (w1 ← registerDriver 0 setup_world; deregisterDriver 0 w1)))
  = availableDrivers (dispatch setup_world).
Proof.
  refine (proj1 (proj2 (register_then_deregister 0 setup_world
                          (default init (registerDriver 0 setup_world)) _ _ _)) _).
  - vm_compute. reflexivity.
  - vm_compute. reflexivity.
  - vm_compute. intros H. apply list_elem_of_singleton in H. discriminate.
Defined.

(** Deregistering a driver and registering it again leaves the driver
    listed exactly once, at the end of the available list, and [AVAILABLE]:
    earlier duplicate entries are gone. *)
Theorem deregister_then_register (p : ptr) (w w1 w2 : World) :
  deregisterDriver p w = Some w1 →
  registerDriver p w1 = Some w2 →
  availableDrivers (dispatch w2)
    = erase_remove p (availableDrivers (dispatch w)) ++ [p] ∧
  (p ∉ erase_remove p (availableDrivers (dispatch w))) ∧
  Driver.status <$> drivers w2 !! p = Some AVAILABLE.
Proof.
  intros (d & Hd & Hf)%deregisterDriver_inv (d1 & Hd1 & Hf1)%registerDriver_inv.
  assert (p < length (drivers w)) as Hlt by (by eapply lookup_lt_Some).
  expose w1 Hf. expose w2 Hf1. simpl in *. split_and!; [done| |].
  - unfold erase_remove. rewrite list_elem_of_filter. by intros [? _].
  - rewrite list_lookup_insert_eq by (by rewrite length_insert). done.
Qed.

Lemma deregister_then_register_witness :
  availableDrivers
    (dispatch (default init (w1 ← deregisterDriver 1 setup_world; registerDriver 1 w1)))
  = erase_remove 1 (availableDrivers (dispatch setup_world)) ++ [1].
Proof.
  refine (proj1 (deregister_then_register 1 setup_world
                   (default init (deregisterDriver 1 setup_world)) _ _ _)).
  - vm_compute. reflexivity.
  - vm_compute. reflexivity.
Defined.

(** ** Identifiers of users *)

Lemma fmap_insert_same {A B} (f : A → B) (g : A → A) (l : list A) i x :
  l !! i = Some x → f (g x) = f x → f <$> <[i := g x]> l = f <$> l.
Proof.
  intros Hi Hf. rewrite list_fmap_insert, Hf.
  apply list_insert_id. by rewrite list_lookup_fmap, Hi.
Qed.

(** What a step does to the user identifiers: nothing, or one more, the
    successor of the counter. *)
Lemma user_ids_step op w w' :
  step op w = Some w' →
  (idCounter w' = idCounter w ∧ Permutation (user_ids w') (user_ids w)) ∨
  (idCounter w' = (idCounter w + 1)%Z ∧
   Permutation (user_ids w') ((idCounter w + 1)%Z :: user_ids w)).
Proof.
  unfold user_ids. destruct op; simpl; intros H.
  - unfold new_Driver in H.
    destruct (incr_int (idCounter w)) as [n|] eqn:En; simplify_eq/=.
    apply incr_int_Some in En as ->. right. split; [done|].
    rewrite fmap_app. simpl. rewrite <- app_assoc. simpl.
    by rewrite <- Permutation_middle.
  - unfold new_Rider in H.
    destruct (incr_int (idCounter w)) as [n|] eqn:En; simplify_eq/=.
    apply incr_int_Some in En as ->. right. split; [done|].
    rewrite fmap_app. simpl. rewrite app_assoc.
    by rewrite <- Permutation_cons_append.
  - apply modify_driver_inv in H as (x & Hx & ->). left. simpl.
    by rewrite (fmap_insert_same Driver.id (Driver.updateLocation loc)).
  - apply modify_driver_inv in H as (x & Hx & ->). left. simpl.
    by rewrite (fmap_insert_same Driver.id (Driver.setRating r)).
  - apply modify_rider_inv in H as (x & Hx & ->). left. simpl.
    by rewrite (fmap_insert_same Rider.id (Rider.updateLocation loc)).
  - apply modify_rider_inv in H as (x & Hx & ->). left. simpl.
    by rewrite (fmap_insert_same Rider.id (Rider.setDiscountAmount amt)).
  - apply registerDriver_inv in H as (x & Hx & Hf). expose w' Hf. left. simpl.
    by rewrite (fmap_insert_same Driver.id (Driver.setStatus AVAILABLE)).
  - apply deregisterDriver_inv in H as (x & Hx & Hf). expose w' Hf. left. simpl.
    by rewrite (fmap_insert_same Driver.id (Driver.setStatus OFFLINE)).
  - destruct (requestRide _ _ _ _ w) as [[r w1]|] eqn:E; simplify_eq/=.
    destruct (requestRide_inv _ _ _ _ _ _ _ E)
      as (rd & m & cands & Hrd & Hm & Hc & Hlen & Hcase).
    clear E. left. destruct (chooseDriver _ _ cands) as [c|].
    + destruct Hcase as (d & Hd & Hf). expose w' Hf. simpl.
      rewrite (fmap_insert_same Driver.id (Driver.setStatus ON_TRIP)) by done.
      by rewrite (fmap_insert_same Rider.id (Rider.addRideToHistory _)).
    + expose w' Hcase. simpl.
      by rewrite (fmap_insert_same Rider.id (Rider.addRideToHistory _)).
  - left. destruct (ongoingRides (dispatch w) !! rideId) as [r|] eqn:Hr.
    + destruct (updateRideStatus_inv _ _ _ _ _ Hr H) as (ride & _ & Hf).
      clear H. expose w' Hf. done.
    + unfold updateRideStatus in H. rewrite Hr in H. by simplify_eq.
  - left. destruct (ongoingRides (dispatch w) !! rideId) as [r|] eqn:Hr.
    + destruct (completeRide_inv _ _ _ _ Hr H)
        as (ride & rd & dp & d & f & ? & ? & ? & Hd & ? & Hf).
      clear H. expose w' Hf. simpl.
      by rewrite (fmap_insert_same Driver.id (Driver.setStatus AVAILABLE)).
    + unfold completeRide in H. rewrite Hr in H. by simplify_eq.
  - left. by simplify_eq.
  - left. by simplify_eq.
  - left. by simplify_eq.
Qed.

Lemma user_ids_run ops w w' :
  run ops w = Some w' → (0 ≤ idCounter w)%Z →
  NoDup (user_ids w) → Forall (λ n, 1 ≤ n ≤ idCounter w)%Z (user_ids w) →
  NoDup (user_ids w') ∧ Forall (λ n, 1 ≤ n ≤ idCounter w')%Z (user_ids w') ∧
  (idCounter w ≤ idCounter w')%Z.
Proof.
  revert w. induction ops as [|op ops IH]; intros w; simpl.
  - intros [= <-] H0 Hnd Hall. split_and!; [done..|lia].
  - intros H H0 Hnd Hall. destruct (step op w) as [w1|] eqn:E; simplify_eq/=.
    destruct (user_ids_step _ _ _ E) as [[Ec Hp]|[Ec Hp]].
    + destruct (IH w1 H) as (? & ? & ?).
      * lia.
      * by rewrite Hp.
      * rewrite Hp, Ec. done.
      * split_and!; [done..|lia].
    + destruct (IH w1 H) as (? & ? & ?).
      * lia.
      * rewrite Hp. apply NoDup_cons. split; [|done].
        intros Hin. rewrite Forall_forall in Hall. apply Hall in Hin. lia.
      * rewrite Hp, Ec. apply Forall_cons. split; [lia|].
        eapply Forall_impl; [done|]. intros n ?. simpl in *. lia.
      * split_and!; [done..|lia].
Qed.

(** After every program, the identifiers of the users are pairwise distinct,
    across drivers and riders, and lie between 1 and the user counter. *)
Theorem user_ids_are_unique (ops : list Op) (w : World) :
  run ops init = Some w →
  NoDup (user_ids w) ∧
  Forall (λ n, 1 ≤ n ≤ idCounter w)%Z (user_ids w) ∧
  (∀ i j d d', drivers w !! i = Some d → drivers w !! j = Some d' →
               Driver.id d = Driver.id d' → i = j) ∧
  (∀ i j d rd, drivers w !! i = Some d → riders w !! j = Some rd →
               Driver.id d ≠ Rider.id rd).
Proof.
  intros H.
  destruct (user_ids_run _ _ _ H) as (Hnd & Hall & _);
    [done|apply NoDup_nil_2|apply Forall_nil_2|].
  split_and!; [done..| |].
  - intros i j d d' Hi Hj Heq.
    unfold user_ids in Hnd. apply NoDup_app in Hnd as (Hnd & _ & _).
    eapply NoDup_lookup; [exact Hnd| |].
    + rewrite list_lookup_fmap, Hi. done.
    + rewrite list_lookup_fmap, Hj. simpl. by rewrite Heq.
  - intros i j d rd Hi Hj Heq.
    unfold user_ids in Hnd. apply NoDup_app in Hnd as (_ & Hdis & _).
    apply (Hdis (Driver.id d)).
    + apply list_elem_of_fmap. exists d. split; [done|].
      apply list_elem_of_lookup. eauto.
    + rewrite Heq. apply list_elem_of_fmap. exists rd. split; [done|].
      apply list_elem_of_lookup. eauto.
Qed.

Lemma user_ids_are_unique_witness : NoDup (user_ids demo_world).
Proof.
  apply (user_ids_are_unique demo_trip). vm_compute. reflexivity.
Defined.

(** ** No call of the service dereferences a dangling pointer *)



(** ** Ride histories *)

Lemma histories_ok_init : histories_ok init.
Proof.
  split; unfold ride_riders; simpl.
  - intros i j H. by rewrite lookup_nil in H.
  - intros j rd H. by rewrite lookup_nil in H.
Qed.

(** [histories_ok] reads the riders and the riders of the rides. *)
Lemma histories_ok_frame w w' :
  riders w' = riders w → ride_riders w' = ride_riders w →
  histories_ok w → histories_ok w'.
Proof. intros E1 E2 [H1 H2]. split; rewrite ?E1, ?E2; done. Qed.

Lemma increasing_snoc (l : list nat) n :
  increasing l → (∀ i, i ∈ l → i < n) → increasing (l ++ [n]).
Proof.
  intros Hinc Hlt a b x y Ha Hb Hab.
  apply lookup_app_Some in Ha as [Ha|[Hga Ha]];
    apply lookup_app_Some in Hb as [Hb|[Hgb Hb]].
  - by eapply Hinc.
  - destruct (b - length l) as [|k]; [|by destruct k]. simpl in Hb.
    simplify_eq. apply Hlt, list_elem_of_lookup. eauto.
  - apply lookup_lt_Some in Hb. lia.
  - destruct (a - length l) as [|k] eqn:Ea; [|by destruct k].
    destruct (b - length l) as [|k] eqn:Eb; [|by destruct k]. lia.
Qed.

Lemma increasing_NoDup (l : list nat) : increasing l → NoDup l.
Proof.
  intros Hinc. apply NoDup_alt. intros a b x Ha Hb.
  destruct (Nat.lt_trichotomy a b) as [Hlt|[->|Hlt]]; [|done|].
  - pose proof (Hinc _ _ _ _ Ha Hb Hlt). lia.
  - pose proof (Hinc _ _ _ _ Hb Ha Hlt). lia.
Qed.

Lemma histories_ok_modify_rider q f w w' :
  (∀ rd, Rider.rideHistory (f rd) = Rider.rideHistory rd) →
  modify_rider q f w = Some w' → histories_ok w → histories_ok w'.
Proof.
  intros Hf (x & Hx & ->)%modify_rider_inv [H1 H2].
  split; simpl; rewrite ?length_insert; [done|].
  intros j rd Hj.
  destruct (decide (j = q)) as [->|Hne].
  - rewrite list_lookup_insert_eq in Hj by (by eapply lookup_lt_Some).
    simplify_eq. rewrite Hf. by apply H2.
  - rewrite list_lookup_insert_ne in Hj by done. by apply H2.
Qed.

Lemma histories_ok_requestRide rider pickup drop type w r w' :
  requestRide rider pickup drop type w = Some (r, w') →
  histories_ok w → histories_ok w'.
Proof.
  intros H [H1 H2].
  destruct (requestRide_inv _ _ _ _ _ _ _ H)
    as (rd & n & cands & Hrd & Hn & Hc & Hlen & Hcase).
  clear H. subst r.
  assert (rider < length (riders w)) as Hlt by (by eapply lookup_lt_Some).
  assert (ride_riders w' = ride_riders w ++ [rider] ∧
          riders w' = <[rider := Rider.addRideToHistory (length (rides w)) rd]>
                        (riders w)) as [Er Erd].
  { unfold ride_riders. destruct (chooseDriver _ _ cands) as [c|].
    - destruct Hcase as (d & Hd & Hf). expose w' Hf. simpl.
      by rewrite fmap_app.
    - expose w' Hcase. simpl. by rewrite fmap_app. }
  assert (length (ride_riders w) = length (rides w)) as Hlen
    by (unfold ride_riders; by rewrite length_fmap).
  split; rewrite Er, Erd, ?length_insert.
  - intros i j [Hi|[_ Hi]]%lookup_app_Some; [eauto|].
    destruct (i - length (ride_riders w)) as [|k]; [|by destruct k].
    simpl in Hi. by simplify_eq.
  - intros j rd' Hj.
    destruct (decide (j = rider)) as [->|Hne].
    + rewrite list_lookup_insert_eq in Hj by done. simplify_eq. simpl.
      destruct (H2 _ _ Hrd) as [Hs Hm]. split.
      * apply increasing_snoc; [done|].
        intros i Hi%Hm. apply lookup_lt_Some in Hi. lia.
      * intros i. rewrite elem_of_app, list_elem_of_singleton, Hm.
        rewrite lookup_app_Some. split.
        -- intros [Hi| ->]; [by left|]. right. split; [lia|].
           by rewrite Hlen, Nat.sub_diag.
        -- intros [Hi|[Hge Hi]]; [by left|]. right.
           destruct (i - length (ride_riders w)) as [|k] eqn:E; [|by destruct k].
           lia.
    + rewrite list_lookup_insert_ne in Hj by done.
      destruct (H2 _ _ Hj) as [Hs Hm]. split; [done|].
      intros i. rewrite Hm, lookup_app_Some. split; [by left|].
      intros [Hi|[Hge Hi]]; [done|].
      destruct (i - length (ride_riders w)) as [|k]; [|by destruct k].
      simpl in Hi. by simplify_eq.
Qed.

Lemma histories_ok_step op w w' :
  step op w = Some w' → histories_ok w → histories_ok w'.
Proof.
  destruct op; simpl; intros H Hok.
  - unfold new_Driver in H.
    destruct (incr_int (idCounter w)) as [n|]; simplify_eq/=.
    by apply (histories_ok_frame w).
  - unfold new_Rider in H.
    destruct (incr_int (idCounter w)) as [n|]; simplify_eq/=.
    destruct Hok as [H1 H2].
    split; unfold ride_riders in *; simpl; rewrite ?length_app; simpl.
    + intros i j Hi%H1. lia.
    + intros j rd [Hj|[Hge Hj]]%lookup_app_Some; [by apply H2|].
      destruct (j - length (riders w)) as [|k] eqn:E; [|by destruct k].
      simpl in Hj. simplify_eq. simpl. split; [intros a b x y Ha; by rewrite lookup_nil in Ha|].
      intros i. split; [by intros ?%elem_of_nil|].
      intros Hi%H1. lia.
  - apply modify_driver_inv in H as (x & _ & ->). by apply (histories_ok_frame w).
  - apply modify_driver_inv in H as (x & _ & ->). by apply (histories_ok_frame w).
  - eapply histories_ok_modify_rider; [|exact H|exact Hok]; done.
  - eapply histories_ok_modify_rider; [|exact H|exact Hok]; done.
  - apply registerDriver_inv in H as (x & _ & Hf). expose w' Hf.
    by apply (histories_ok_frame w).
  - apply deregisterDriver_inv in H as (x & _ & Hf). expose w' Hf.
    by apply (histories_ok_frame w).
  - destruct (requestRide _ _ _ _ w) as [[r w1]|] eqn:E; simplify_eq/=.
    by eapply histories_ok_requestRide.
  - destruct (ongoingRides (dispatch w) !! rideId) as [r|] eqn:Hr.
    + destruct (updateRideStatus_inv _ _ _ _ _ Hr H) as (ride & Hride & Hf).
      clear H. expose w' Hf. apply (histories_ok_frame w); [done| |done].
      unfold ride_riders. simpl.
      by rewrite (fmap_insert_same Ride.rider (Ride.with_status newStatus)).
    + unfold updateRideStatus in H. rewrite Hr in H. simplify_eq.
      by apply (histories_ok_frame w).
  - destruct (ongoingRides (dispatch w) !! rideId) as [r|] eqn:Hr.
    + destruct (completeRide_inv _ _ _ _ Hr H)
        as (ride & rd & dp & d & f & Hride & ? & ? & ? & ? & Hf).
      clear H. expose w' Hf. apply (histories_ok_frame w); [done| |done].
      unfold ride_riders. simpl.
      by rewrite (fmap_insert_same Ride.rider
                    (λ x, Ride.setPaid true (Ride.setFare f (Ride.with_status COMPLETED x)))).
    + unfold completeRide in H. rewrite Hr in H. simplify_eq.
      by apply (histories_ok_frame w).
  - simplify_eq. by apply (histories_ok_frame w).
  - simplify_eq. by apply (histories_ok_frame w).
  - simplify_eq. by apply (histories_ok_frame w).
Qed.

Lemma histories_ok_run ops w w' :
  run ops w = Some w' → histories_ok w → histories_ok w'.
Proof.
  revert w. induction ops as [|op ops IH]; intros w; simpl.
  - by intros [= <-].
  - intros H Hok. destruct (step op w) as [w1|] eqn:E; simplify_eq/=.
    eapply IH; [done|]. by eapply histories_ok_step.
Qed.

(** After every program, the history of a rider lists, in increasing order
    and each once, exactly the rides that rider requested, the ones
    cancelled for want of a driver included. *)
Theorem rider_history_lists_requests (ops : list Op) (w : World) (j : ptr)
    (rd : Rider.t) :
  run ops init = Some w →
  riders w !! j = Some rd →
  increasing (Rider.rideHistory rd) ∧
  NoDup (Rider.rideHistory rd) ∧
  (∀ i, i ∈ Rider.rideHistory rd ↔
        ∃ ride, rides w !! i = Some ride ∧ Ride.rider ride = j).
Proof.
  intros Hrun Hj.
  assert (histories_ok w) as [H1 H2]
    by (eapply histories_ok_run; [done|apply histories_ok_init]).
  destruct (H2 _ _ Hj) as [Hs Hm]. split_and!; [done| |].
  - by apply increasing_NoDup.
  - intros i. rewrite Hm. unfold ride_riders. rewrite list_lookup_fmap.
    destruct (rides w !! i) as [ride|]; simpl; split.
    + intros [= <-]. eauto.
    + intros (ride' & [= <-] & <-). done.
    + done.
    + by intros (? & ? & _).
Qed.

Lemma rider_history_lists_requests_witness :
  increasing [0] ∧ NoDup [0] ∧
  (∀ i, i ∈ [0] ↔ ∃ ride, rides demo_world !! i = Some ride ∧ Ride.rider ride = 0).
Proof.
  apply (rider_history_lists_requests demo_trip demo_world 0
           (Rider.make 3 "Eve" "8888880001" (Location.make 12.5 77.5) [0] 0)).
  - vm_compute. reflexivity.
  - vm_compute. reflexivity.
Defined.
